(** * The data-inspection workflow of [inspection-stack.ts]

    The stack declares five ECS tasks, chains them into a Step Functions
    state machine ([wf_chain], [sfnInspector]) and registers a custom
    resource whose handler creates the search index.  The state machine is a
    declarative program: its meaning is the Amazon States Language reading of
    the fields the source sets ([inputPath], [resultPath],
    [integrationPattern], [timeout], the [next] links and the absence of any
    retrier or catcher).  This file embeds the declarations as data, gives
    them that reading as an executable interpreter over an external task
    launcher, and states the properties of the workflow against it. *)

From Stdlib Require Import List String Arith NArith Bool Lia.
Import ListNotations.
Open Scope string_scope.
Open Scope list_scope.

(** ** Ordered key/value bags *)

Section AList.
Variable V : Type.

Definition alist := list (string * V).

Fixpoint alist_get (k : string) (l : alist) : option V :=
  match l with
  | [] => None
  | (k', v) :: rest => if String.eqb k k' then Some v else alist_get k rest
  end.

(** Functional update: the binding of [k] is replaced where it stands, or
    appended when [k] is new; the argument list itself is never touched. *)
Fixpoint alist_with (k : string) (v : V) (l : alist) : alist :=
  match l with
  | [] => [(k, v)]
  | (k', v') :: rest =>
      if String.eqb k k' then (k', v) :: rest
      else (k', v') :: alist_with k v rest
  end.

Definition alist_keys (l : alist) : list string := map fst l.
End AList.

Arguments alist_get {V} k l.
Arguments alist_with {V} k v l.
Arguments alist_keys {V} l.

(** ** JSON documents and paths

    The execution input is a JSON document; the source addresses it with
    paths such as ['$'] and ['$.S3Input'].  A path is the list of member
    names after the root, so ['$'] is [[]]. *)

#[warnings="-register-all"]
Inductive json : Type :=
| JStr (s : string)
| JObj (fields : list (string * json)).

Definition JsonPath := list string.

Fixpoint json_get (p : JsonPath) (d : json) : option json :=
  match p with
  | [] => Some d
  | k :: rest =>
      match d with
      | JObj fields =>
          match alist_get k fields with
          | Some v => json_get rest v
          | None => None
          end
      | JStr _ => None
      end
  end.

Fixpoint json_set (p : JsonPath) (v : json) (d : json) : json :=
  match p with
  | [] => v
  | k :: rest =>
      let fields := match d with JObj fs => fs | JStr _ => [] end in
      let old := match alist_get k fields with Some o => o | None => JObj [] end in
      JObj (alist_with k (json_set rest v old) fields)
  end.

(** [sfn.JsonPath.stringAt(path)]: the string found at [path]. *)
Definition stringAt (p : JsonPath) (d : json) : option string :=
  match json_get p d with
  | Some (JStr s) => Some s
  | _ => None
  end.

(** ** Context

    The caller-supplied flat key/value document.  [get] is what a stage does
    with ['$.Key']. *)

Module Context.
Definition t := alist string.

Definition get (k : string) (c : t) : option string := alist_get k c.

(** Modelled from the spec: the source never updates the document, so
    [with] has no definition there; section 4.1 describes it as a
    functional update returning a new Context. *)
Definition with_ (k v : string) (c : t) : t := alist_with k v c.

Definition keys (c : t) : list string := alist_keys c.

Definition to_json (c : t) : json :=
  JObj (map (fun kv => (fst kv, JStr (snd kv))) c).
End Context.

(** ** Task definitions and containers *)

Record ContainerDefinition := {
  containerName : string;
  image : string;
  environment : list (string * string);
}.

Record FargateTaskDefinition := {
  family : string;
  memoryLimitMiB : N;
  cpu : N;
  ephemeralStorageGiB : N;
}.

Definition subsamplerTask : FargateTaskDefinition :=
  {| family := "SubsamplerTask"; memoryLimitMiB := 8192%N; cpu := 2048%N;
     ephemeralStorageGiB := 200%N |}.
Definition subsamplerContainer : ContainerDefinition :=
  {| containerName := "SubsamplerWorker"; image := "fargate/subsampler";
     environment := [] |}.

Definition inspectTask : FargateTaskDefinition :=
  {| family := "InspectTask"; memoryLimitMiB := 8192%N; cpu := 2048%N;
     ephemeralStorageGiB := 200%N |}.
Definition inspectContainer : ContainerDefinition :=
  {| containerName := "InspectWorker"; image := "fargate/inspector";
     environment := [] |}.

Definition dupdetectTask : FargateTaskDefinition :=
  {| family := "DuplicateDetectionTask"; memoryLimitMiB := 8192%N; cpu := 2048%N;
     ephemeralStorageGiB := 200%N |}.
Definition dupdetectContainer : ContainerDefinition :=
  {| containerName := "DupdetectWorker"; image := "fargate/dupdetector";
     environment := [("OSS_DOMAIN_ENDPOINT", "vectorDB.attrCollectionEndpoint");
                     ("OSS_INDEX_NAME", "embeddings")] |}.

Definition curatorTask : FargateTaskDefinition :=
  {| family := "CuratorTask"; memoryLimitMiB := 8192%N; cpu := 2048%N;
     ephemeralStorageGiB := 200%N |}.
Definition curatorContainer : ContainerDefinition :=
  {| containerName := "CuratorWorker"; image := "fargate/curator";
     environment := [("OSS_DOMAIN_ENDPOINT", "vectorDB.attrCollectionEndpoint");
                     ("OSS_INDEX_NAME", "embeddings");
                     ("GLUE_CATALOG", "cfnDatabase.ref")] |}.

(** ** Task states *)

Inductive IntegrationPattern := REQUEST_RESPONSE | RUN_JOB | WAIT_FOR_TASK_TOKEN.

Inductive ResultPath := DISCARD | ResultAt (p : JsonPath).

Record EnvOverride := { name : string; value : JsonPath }.

Record EcsRunTask := {
  id : string;
  integrationPattern : IntegrationPattern;
  taskDefinition : FargateTaskDefinition;
  containerDefinition : ContainerDefinition;
  overrides : list EnvOverride;
  inputPath : JsonPath;
  resultPath : ResultPath;
}.

Definition runSubsamplerTaskFirstPass : EcsRunTask :=
  {| id := "SubsamplerFirstPass";
     integrationPattern := RUN_JOB;
     taskDefinition := subsamplerTask;
     containerDefinition := subsamplerContainer;
     overrides :=
       [ {| name := "S3_INPUT"; value := ["S3Input"] |};
         {| name := "S3_OUTPUT"; value := ["S3OutputFirst"] |} ];
     inputPath := [];
     resultPath := DISCARD |}.

Definition runSubsamplerTaskSecondPass : EcsRunTask :=
  {| id := "SubsamplerSecondPass";
     integrationPattern := RUN_JOB;
     taskDefinition := subsamplerTask;
     containerDefinition := subsamplerContainer;
     overrides :=
       [ {| name := "S3_INPUT"; value := ["S3Input"] |};
         {| name := "S3_OUTPUT"; value := ["S3OutputSecond"] |} ];
     inputPath := [];
     resultPath := DISCARD |}.

Definition runInspectTask : EcsRunTask :=
  {| id := "RunInspectTask";
     integrationPattern := RUN_JOB;
     taskDefinition := inspectTask;
     containerDefinition := inspectContainer;
     overrides :=
       [ {| name := "S3_INPUT_1"; value := ["S3OutputFirst"] |};
         {| name := "S3_INPUT_2"; value := ["S3OutputSecond"] |};
         {| name := "S3_OUTPUT_1"; value := ["S3OutputSchema1"] |};
         {| name := "S3_OUTPUT_2"; value := ["S3OutputSchema2"] |} ];
     inputPath := [];
     resultPath := DISCARD |}.

Definition runDupdetectTask : EcsRunTask :=
  {| id := "RunDupdetectTask";
     integrationPattern := RUN_JOB;
     taskDefinition := dupdetectTask;
     containerDefinition := dupdetectContainer;
     overrides :=
       [ {| name := "S3_INPUT"; value := ["S3OutputSchema2"] |};
         {| name := "S3_OUTPUT"; value := ["S3OutputDupRank"] |};
         {| name := "S3_OUTPUT_DESC"; value := ["S3OutputTableDesc"] |} ];
     inputPath := [];
     resultPath := DISCARD |}.

Definition runCuratorTask : EcsRunTask :=
  {| id := "RunCuratorTask";
     integrationPattern := RUN_JOB;
     taskDefinition := curatorTask;
     containerDefinition := curatorContainer;
     overrides :=
       [ {| name := "S3_INPUT_DATA"; value := ["S3Input"] |};
         {| name := "S3_INPUT_SCHEMA"; value := ["S3OutputSchema2"] |};
         {| name := "S3_INPUT_DESC"; value := ["S3OutputTableDesc"] |};
         {| name := "S3_INPUT_DQDL"; value := ["S3InputDQDL"] |};
         {| name := "S3_OUTPUT_DQDL"; value := ["S3OutputDQDL"] |};
         {| name := "TABLE_NAME"; value := ["TableName"] |} ];
     inputPath := [];
     resultPath := DISCARD |}.

(** ** Chains and the state machine *)

Module Chain.
(** A chain is its states in execution order; [start] and [next] are the
    only constructors the source uses, and neither looks at any key.  This
    is the reading of a chain whose states are all different objects, as
    the five of [wf_chain] are; [compile] below follows the linking of the
    state objects themselves and agrees with it on such chains. *)
Definition t := list EcsRunTask.
Definition start (s : EcsRunTask) : t := [s].
Definition next (c : t) (s : EcsRunTask) : t := c ++ [s].
End Chain.

Definition wf_chain : Chain.t :=
  Chain.next (Chain.next (Chain.next (Chain.next
    (Chain.start runSubsamplerTaskFirstPass)
    runSubsamplerTaskSecondPass)
    runInspectTask)
    runDupdetectTask)
    runCuratorTask.

Module Duration.
(** Durations are counted in seconds. *)
Definition minutes (n : nat) : nat := n * 60.
End Duration.

Record StateMachine := {
  definition : Chain.t;
  timeout : nat;
}.

Definition sfnInspector : StateMachine :=
  {| definition := wf_chain; timeout := Duration.minutes 30 |}.

(** ** Running the state machine

    The task launcher is external.  Asked to run a task with an environment
    it either never reports back ([None]) or reports, after some seconds, that
    the task succeeded with some outputs or failed with a cause.  It is given
    the history of the run so far, so two launches of one task definition
    need not behave alike. *)

Inductive TaskOutcome :=
| TaskSucceeded (outputs : json)
| TaskFailed (cause : string).

Inductive Cause :=
| TaskFailedCause (cause : string)
| PathFailure (field : string) (path : JsonPath).

Inductive Status :=
| Succeeded (output : json)
| Failed (state : string) (cause : Cause)
| TimedOut.

Inductive Event :=
| Launch (state : string) (input : json) (env : list (string * string))
| Cancel (state : string).

Definition Launcher :=
  list Event -> EcsRunTask -> list (string * string) -> option (nat * TaskOutcome).

(** The container overrides are resolved against the state's effective
    input; the first path that does not lead to a string is reported. *)
Fixpoint resolve_env (env : list EnvOverride) (input : json)
  : list (string * string) + (string * JsonPath) :=
  match env with
  | [] => inl []
  | e :: rest =>
      match stringAt (value e) input with
      | None => inr (name e, value e)
      | Some v =>
          match resolve_env rest input with
          | inl r => inl ((name e, v) :: r)
          | inr err => inr err
          end
      end
  end.

(** [resultPath]: [DISCARD] hands the state's input on unchanged, a path
    stores the task result there. *)
Definition apply_result (rp : ResultPath) (doc result : json) : json :=
  match rp with
  | DISCARD => doc
  | ResultAt p => json_set p result doc
  end.

Section Run.
Variable deadline : nat.
Variable launch : Launcher.

(** One task state, entered [elapsed] seconds into the run with document
    [doc] after history [hist].  The answer is the events it adds, and
    either the terminal status of the run or the time and document with
    which the next state is entered.  The state has no retrier and no
    catcher, so a failure ends the run. *)
Definition run_stage (s : EcsRunTask) (hist : list Event) (elapsed : nat) (doc : json)
  : list Event * (Status + nat * json) :=
  match json_get (inputPath s) doc with
  | None => ([], inl (Failed (id s) (PathFailure "InputPath" (inputPath s))))
  | Some input =>
      match resolve_env (overrides s) input with
      | inr (field, path) => ([], inl (Failed (id s) (PathFailure field path)))
      | inl env =>
          let started := Launch (id s) input env in
          match integrationPattern s with
          | REQUEST_RESPONSE =>
              ([started], inr (elapsed, apply_result (resultPath s) doc (JObj [])))
          | pattern =>
              let stop :=
                match pattern with RUN_JOB => [Cancel (id s)] | _ => [] end in
              match launch hist s env with
              | None => (started :: stop, inl TimedOut)
              | Some (d, outcome) =>
                  if (deadline <? elapsed + d)%nat then (started :: stop, inl TimedOut)
                  else
                    match outcome with
                    | TaskSucceeded outputs =>
                        ([started],
                         inr (elapsed + d, apply_result (resultPath s) doc outputs))
                    | TaskFailed c =>
                        ([started], inl (Failed (id s) (TaskFailedCause c)))
                    end
              end
          end
      end
  end.

(** The states of a chain, one after the other. *)
Fixpoint run_chain (c : Chain.t) (hist : list Event) (elapsed : nat) (doc : json)
  : list Event * (Status + nat * json) :=
  match c with
  | [] => (hist, inr (elapsed, doc))
  | s :: rest =>
      match run_stage s hist elapsed doc with
      | (evs, inl st) => (hist ++ evs, inl st)
      | (evs, inr (elapsed', doc')) => run_chain rest (hist ++ evs) elapsed' doc'
      end
  end.
End Run.

(** Starting an execution: every state of the definition in turn, from time
    zero and an empty history; running off the end of the chain is success. *)
Definition startExecution (sm : StateMachine) (launch : Launcher) (input : json)
  : list Event * Status :=
  match run_chain (timeout sm) launch (definition sm) [] 0 input with
  | (h, inl st) => (h, st)
  | (h, inr (_, out)) => (h, Succeeded out)
  end.

Definition launched (h : list Event) : list string :=
  flat_map (fun e => match e with Launch s _ _ => [s] | Cancel _ => [] end) h.

Definition cancelled (h : list Event) : list string :=
  flat_map (fun e => match e with Cancel s => [s] | Launch _ _ _ => [] end) h.

(** The keys of the README's sample input, with the values of the
    end-to-end scenario. *)
Definition scenario : Context.t :=
  [ ("S3Input", "a"); ("S3OutputFirst", ""); ("S3OutputSecond", "");
    ("S3OutputSchema1", ""); ("S3OutputSchema2", ""); ("S3OutputDupRank", "");
    ("S3OutputTableDesc", ""); ("TableName", "mytable"); ("S3InputDQDL", "x");
    ("S3OutputDQDL", "") ].

Definition prompt_launcher (outcome : EcsRunTask -> TaskOutcome) : Launcher :=
  fun _ s _ => Some (60, outcome s).

(** Modelled from the spec: Contexts held by reference, as a caller and an
    observer share them.  Section 4.1 says [with] never mutates the caller's
    copy; the source has no such operation.  The store keeps every Context
    ever built, and [with_] allocates the updated Context in a fresh cell. *)
Module ContextStore.
Definition ref := nat.
Definition t := list Context.t.

Definition deref (r : ref) (s : t) : option Context.t := nth_error s r.

Definition get (r : ref) (k : string) (s : t) : option string :=
  match deref r s with
  | Some c => Context.get k c
  | None => None
  end.

Definition with_ (r : ref) (k v : string) (s : t) : option (t * ref) :=
  match deref r s with
  | Some c => Some (s ++ [Context.with_ k v c], List.length s)
  | None => None
  end.
End ContextStore.

(** A state passes the document through when it reads all of it and
    discards its result. *)
Definition passes_through (s : EcsRunTask) : Prop :=
  inputPath s = [] /\ resultPath s = DISCARD.

Definition inputs_are (doc : json) (h : list Event) : Prop :=
  forall s input env, In (Launch s input env) h -> input = doc.

(** Launchers used to exercise the workflow: every task reports after a
    minute, with an outcome chosen per state; or one named state never
    reports. *)
Definition failing_at (state : string) : Launcher :=
  prompt_launcher (fun s =>
    if String.eqb (id s) state then TaskFailed "exit code 1"
    else TaskSucceeded (JObj [])).

Definition hanging_at (state : string) : Launcher :=
  fun _ s _ =>
    if String.eqb (id s) state then None else Some (60, TaskSucceeded (JObj [])).

(** ** Keys a stage refers to

    Every override reads a member of the submitted document.  The variables
    named [S3_OUTPUT...] carry the locations a job writes to; the others
    carry what it reads. *)
Definition is_output (e : EnvOverride) : bool := String.prefix "S3_OUTPUT" (name e).

Definition root_key (p : JsonPath) : list string := firstn 1 p.

Definition output_keys (s : EcsRunTask) : list string :=
  flat_map (fun e => root_key (value e)) (filter is_output (overrides s)).

Definition input_keys (s : EcsRunTask) : list string :=
  flat_map (fun e => root_key (value e))
           (filter (fun e => negb (is_output e)) (overrides s)).

(** ** Linking the states of a requested order

    [Chain.start(first).next(s)...] links state objects: each [next] sets
    the [_next] field of the chain's current end state and makes the added
    state the new end.  A state is one object however often the order names
    it, and setting [_next] on a state that already has one throws.  The
    fields are kept by state id. *)
Definition Links := alist EcsRunTask.

Definition makeNext (from to : EcsRunTask) (links : Links) : option Links :=
  match alist_get (id from) links with
  | Some _ => None
  | None => Some (alist_with (id from) to links)
  end.

(** Adding the states of [rest] after [endState]; the answer is the id of
    the state whose [_next] was already set, or the links made. *)
Fixpoint link (endState : EcsRunTask) (links : Links) (rest : list EcsRunTask)
  : string + Links :=
  match rest with
  | [] => inr links
  | s :: rest' =>
      match makeNext endState s links with
      | None => inl (id endState)
      | Some links' => link s links' rest'
      end
  end.

(** The states met from [s] along the links, up to the first one without a
    next state; [None] when [fuel] links do not reach one. *)
Fixpoint follow (fuel : nat) (s : EcsRunTask) (links : Links) : option Chain.t :=
  match alist_get (id s) links with
  | None => Some [s]
  | Some n =>
      match fuel with
      | 0 => None
      | S f =>
          match follow f n links with
          | Some c => Some (s :: c)
          | None => None
          end
      end
  end.

Inductive Built :=
| Plan (c : Chain.t)
| NoStartState
| StateAlreadyHasNextState (state : string)
| NoTerminalState.

(** Building the definition from a requested order, as the source does with
    [Chain.start(first).next(...)]: no key is looked at.  The plan is the
    path from the first state along the links; an order that names a state
    twice either throws while linking or leaves a loop with no last state.
    A path through [rest]'s links has at most as many links as [rest] has
    states. *)
Definition compile (order : list EcsRunTask) : Built :=
  match order with
  | [] => NoStartState
  | first :: rest =>
      match link first [] rest with
      | inl st => StateAlreadyHasNextState st
      | inr links =>
          match follow (List.length rest) first links with
          | Some c => Plan c
          | None => NoTerminalState
          end
      end
  end.

(** The states of [e :: rest] that are given a next state, and the last
    state, which is not. *)
Fixpoint froms (e : EcsRunTask) (rest : list EcsRunTask) : list EcsRunTask :=
  match rest with
  | [] => []
  | s :: r => e :: froms s r
  end.

Fixpoint final (e : EcsRunTask) (rest : list EcsRunTask) : EcsRunTask :=
  match rest with
  | [] => e
  | s :: r => final s r
  end.

(** ** A stage that fails

    What it is for the stage [s], entered at time [t] with document [doc]
    after history [h], to fail, told from the document and from what the
    launcher reports: its input path or one of its override paths does not
    resolve, or its task is launched and reported failed by the deadline.
    [evs] are the events the stage adds and [cause] is the cause. *)
Inductive stage_fails (deadline : nat) (launch : Launcher) (s : EcsRunTask)
          (h : list Event) (t : nat) (doc : json) : list Event -> Cause -> Prop :=
| input_path_fails :
    json_get (inputPath s) doc = None ->
    stage_fails deadline launch s h t doc [] (PathFailure "InputPath" (inputPath s))
| override_fails input field path :
    json_get (inputPath s) doc = Some input ->
    resolve_env (overrides s) input = inr (field, path) ->
    stage_fails deadline launch s h t doc [] (PathFailure field path)
| task_fails input env d c :
    json_get (inputPath s) doc = Some input ->
    resolve_env (overrides s) input = inl env ->
    integrationPattern s <> REQUEST_RESPONSE ->
    launch h s env = Some (d, TaskFailed c) ->
    t + d <= deadline ->
    stage_fails deadline launch s h t doc
                [Launch (id s) input env] (TaskFailedCause c).

(** The forward key check in the words of section 4.3, for comparison with
    [compile]: walk the order with the available keys, fail on the first
    required key that is not available, then add the stage's output keys. *)
Inductive ValidationError := MissingInput (stage key : string).

Fixpoint spec_walk (available : list string) (order : list EcsRunTask)
  : option ValidationError :=
  match order with
  | [] => None
  | s :: rest =>
      match find (fun k => negb (existsb (String.eqb k) available)) (input_keys s) with
      | Some k => Some (MissingInput (id s) k)
      | None => spec_walk (available ++ output_keys s) rest
      end
  end.

(** More launchers: every task succeeds and reports nothing; every task
    succeeds and reports a value for each of its output keys. *)
Definition silent_success : Launcher :=
  prompt_launcher (fun _ => TaskSucceeded (JObj [])).

Definition writing_launcher : Launcher :=
  prompt_launcher (fun s =>
    TaskSucceeded (JObj (map (fun k => (k, JStr "written")) (output_keys s)))).

(** The first stage as it would be if it kept its result. *)
Definition merging_first_pass : EcsRunTask :=
  {| id := id runSubsamplerTaskFirstPass;
     integrationPattern := integrationPattern runSubsamplerTaskFirstPass;
     taskDefinition := taskDefinition runSubsamplerTaskFirstPass;
     containerDefinition := containerDefinition runSubsamplerTaskFirstPass;
     overrides := overrides runSubsamplerTaskFirstPass;
     inputPath := inputPath runSubsamplerTaskFirstPass;
     resultPath := ResultAt ["S3OutputFirst"] |}.


(** ** The index bootstrap

    The stack wires a custom resource to a provider whose event handler is
    the function [createOsIndexLambda]; the index it manages is named by the
    function's [INDEX] variable. *)

Module Lambda.
Record t := {
  runtime : string;
  code : string;
  handler : string;
  timeout : nat;
  memorySize : N;
  environment : list (string * string);
}.
End Lambda.

Definition createOsIndexLambda : Lambda.t :=
  {| Lambda.runtime := "PYTHON_3_9";
     Lambda.code := "lambda/ossetup";
     Lambda.handler := "lambda_function.on_event";
     Lambda.timeout := Duration.minutes 1;
     Lambda.memorySize := 1024%N;
     Lambda.environment :=
       [("DOMAINURL", "vectorDB.attrCollectionEndpoint");
        ("INDEX", "embeddings");
        ("REGION", "this.region")] |}.

Record Provider := {
  onEventHandler : Lambda.t;
  isCompleteHandler : option Lambda.t;
}.

Definition customResourceProvider : Provider :=
  {| onEventHandler := createOsIndexLambda; isCompleteHandler := None |}.

Definition INDEX : string :=
  match alist_get "INDEX" (Lambda.environment (onEventHandler customResourceProvider)) with
  | Some i => i
  | None => ""
  end.

(** Modelled from the spec: the lifecycle states of the index (section 3),
    the requests and outcomes of the handler's contract (section 4.5) and
    the search-index service it calls (section 6).  The handler's code,
    [lambda/ossetup], is outside the stack's source. *)
Module Bootstrap.

Inductive BootstrapResource := absent | creating | ready | failed | deleting.
Inductive RequestType := Create | Update | Delete.
Inductive Outcome := Success | Failure | InProgress.

(** Calls to the search-index service, in the order they were issued. *)
Inductive Call :=
| createIndex (name : string)
| indexExists (name : string)
| deleteIndex (name : string).

(** The service's answers; each may depend on the calls made before. *)
Record Service := {
  createIndex_ack : list Call -> string -> bool;
  indexExists_ans : list Call -> string -> bool;
  deleteIndex_ack : list Call -> string -> bool;
}.

Record State := { resource : BootstrapResource; calls : list Call }.

Definition initial : State := {| resource := absent; calls := [] |}.

Definition is_create (c : Call) : bool :=
  match c with createIndex _ => true | _ => false end.

Definition creation_calls (log : list Call) : nat :=
  List.length (filter is_create log).

Section Handler.
Variable svc : Service.
(** What section 4.5 leaves open ([Update], [Create] on a resource that
    is [failed] or [deleting], the state after a refused deletion) is a
    parameter. *)
Variable unspecified : RequestType -> State -> State * Outcome.

(** Modelled from the spec: the handler [lambda_function.on_event] lives
    in [lambda/ossetup], outside the stack's source.  Section 4.5: on
    [Create] an [absent] resource is created with one call to the
    service and becomes [ready] or [failed]; a [ready] one reports
    [Success] at once with no side effect; one that is [creating]
    reports the operation in flight.  On [Delete] deletion is attempted
    only if the index exists, and absence is [Success]. *)
Definition apply (ev : RequestType) (st : State) : State * Outcome :=
  match ev with
  | Create =>
      match resource st with
      | absent =>
          let log := calls st ++ [createIndex INDEX] in
          if createIndex_ack svc (calls st) INDEX
          then ({| resource := ready; calls := log |}, Success)
          else ({| resource := failed; calls := log |}, Failure)
      | ready => (st, Success)
      | creating => (st, InProgress)
      | failed | deleting => unspecified ev st
      end
  | Delete =>
      let log := calls st ++ [indexExists INDEX] in
      if indexExists_ans svc (calls st) INDEX
      then
        if deleteIndex_ack svc log INDEX
        then ({| resource := absent; calls := log ++ [deleteIndex INDEX] |}, Success)
        else unspecified ev {| resource := resource st;
                               calls := log ++ [deleteIndex INDEX] |}
      else ({| resource := absent; calls := log |}, Success)
  | Update => unspecified ev st
  end.

(** Invocations one after the other. *)
Fixpoint apply_all (evs : list RequestType) (st : State) : State * list Outcome :=
  match evs with
  | [] => (st, [])
  | ev :: rest =>
      let (st1, o) := apply ev st in
      let (st2, os) := apply_all rest st1 in
      (st2, o :: os)
  end.

(** *** Two invocations at once *)

Inductive Caller := First | Second.

Inductive Pc :=
| Arrived
| Leading
| Awaiting (ack : bool)
| Waiting
| Returned (o : Outcome).

Record Config := {
  shared : State;
  pcFirst : Pc;
  pcSecond : Pc;
}.

Definition pc (c : Config) (i : Caller) : Pc :=
  match i with First => pcFirst c | Second => pcSecond c end.

Definition set_pc (i : Caller) (p : Pc) (st : State) (c : Config) : Config :=
  match i with
  | First => {| shared := st; pcFirst := p; pcSecond := pcSecond c |}
  | Second => {| shared := st; pcFirst := pcFirst c; pcSecond := p |}
  end.

Definition other (i : Caller) : Caller :=
  match i with First => Second | Second => First end.

Definition start : Config :=
  {| shared := initial; pcFirst := Arrived; pcSecond := Arrived |}.

(** Modelled from the spec: section 4.5 asks that concurrent invocations
    for one resource serialize through a single in-flight operation.
    Each invocation of [Create] is a small process, and [step i] is its
    next atomic step.  On arrival it tests the resource and, if [absent],
    marks it [creating] in the same step (the single-flight guard) and
    leads the creation; if it finds [creating] it waits for the operation
    in flight.  The leader issues the call, then receives the
    acknowledgment and settles the resource; a waiter returns what the
    settled resource shows. *)
Definition step (i : Caller) (c : Config) : Config :=
  let st := shared c in
  match pc c i with
  | Arrived =>
      match resource st with
      | absent =>
          set_pc i Leading {| resource := creating; calls := calls st |} c
      | creating => set_pc i Waiting st c
      | ready => set_pc i (Returned Success) st c
      | failed | deleting =>
          let (st', o) := unspecified Create st in set_pc i (Returned o) st' c
      end
  | Leading =>
      set_pc i (Awaiting (createIndex_ack svc (calls st) INDEX))
             {| resource := resource st; calls := calls st ++ [createIndex INDEX] |} c
  | Awaiting true =>
      set_pc i (Returned Success) {| resource := ready; calls := calls st |} c
  | Awaiting false =>
      set_pc i (Returned Failure) {| resource := failed; calls := calls st |} c
  | Waiting =>
      match resource st with
      | ready => set_pc i (Returned Success) st c
      | failed => set_pc i (Returned Failure) st c
      | _ => c
      end
  | Returned _ => c
  end.

Definition run (sched : list Caller) (c : Config) : Config :=
  fold_left (fun c i => step i c) sched c.

Definition has_returned (p : Pc) : bool :=
  match p with Returned _ => true | _ => false end.

Definition has_arrived (p : Pc) : bool :=
  match p with Arrived => false | _ => true end.

(** The two invocations overlap in a configuration unless one has
    returned before the other has even tested the resource. *)
Definition overlap (c : Config) : bool :=
  negb (has_returned (pcFirst c) && negb (has_arrived (pcSecond c))) &&
  negb (has_returned (pcSecond c) && negb (has_arrived (pcFirst c))).

(** A schedule is concurrent when the invocations overlap after each of
    its prefixes. *)
Fixpoint overlapping (sched : list Caller) (c : Config) : bool :=
  overlap c &&
  match sched with
  | [] => true
  | i :: rest => overlapping rest (step i c)
  end.

Definition concurrent (sched : list Caller) : bool := overlapping sched start.

(** Steps that bring both invocations to their return from [c]: whoever
    has not yet tested the resource does so, then each is given the
    steps it can still need. *)
Definition finish (c : Config) : list Caller :=
  (if has_arrived (pcFirst c) then [] else [First]) ++
  (if has_arrived (pcSecond c) then [] else [Second]) ++
  [First; First; Second; Second; First].

(** What every configuration of a concurrent schedule looks like: before
    anyone has tested the resource it is [absent] and nothing was
    called; while it is [creating] one invocation leads and the call log
    holds its call once issued; once settled, the leader has returned
    the acknowledged outcome and the other waits or has returned the
    same. *)
Definition follower (p : Pc) : Prop := p = Arrived \/ p = Waiting.

Definition settled (o : Outcome) (p : Pc) : Prop := p = Waiting \/ p = Returned o.

Definition invariant (c : Config) : Prop :=
  let ack := createIndex_ack svc [] INDEX in
  match resource (shared c) with
  | absent =>
      calls (shared c) = [] /\ pcFirst c = Arrived /\ pcSecond c = Arrived
  | creating =>
      exists l, follower (pc c (other l)) /\
                ((pc c l = Leading /\ calls (shared c) = []) \/
                 (pc c l = Awaiting ack /\ calls (shared c) = [createIndex INDEX]))
  | ready =>
      ack = true /\ calls (shared c) = [createIndex INDEX] /\
      exists l, pc c l = Returned Success /\ settled Success (pc c (other l))
  | failed =>
      ack = false /\ calls (shared c) = [createIndex INDEX] /\
      exists l, pc c l = Returned Failure /\ settled Failure (pc c (other l))
  | deleting => False
  end.
End Handler.

Definition is_ready (r : BootstrapResource) : bool :=
  match r with ready => true | _ => false end.
End Bootstrap.

(** A stage uses the index when its container is given the index name. *)
Definition uses_index (s : EcsRunTask) : bool :=
  existsb (fun kv => String.eqb (fst kv) "OSS_INDEX_NAME")
          (environment (containerDefinition s)).

(** A world in which the jobs that use the index fail unless it is ready. *)
Definition index_dependent_launcher (res : Bootstrap.BootstrapResource) : Launcher :=
  prompt_launcher (fun s =>
    if uses_index s && negb (Bootstrap.is_ready res)
    then TaskFailed "index_not_found_exception"
    else TaskSucceeded (JObj [])).

(** A service that acknowledges everything, one that refuses creation, and
    a stand-in for the cases the handler's description leaves open. *)
Definition always_ack : Bootstrap.Service :=
  {| Bootstrap.createIndex_ack := fun _ _ => true;
     Bootstrap.indexExists_ans := fun _ _ => true;
     Bootstrap.deleteIndex_ack := fun _ _ => true |}.

Definition never_ack : Bootstrap.Service :=
  {| Bootstrap.createIndex_ack := fun _ _ => false;
     Bootstrap.indexExists_ans := fun _ _ => false;
     Bootstrap.deleteIndex_ack := fun _ _ => false |}.

Definition refuse (ev : Bootstrap.RequestType) (st : Bootstrap.State)
  : Bootstrap.State * Bootstrap.Outcome := (st, Bootstrap.Failure).

(** ** Keys a chain needs

    The member of the submitted document that each override of each stage
    reads, in the order the chain meets them. *)
Definition required_keys (c : Chain.t) : list string :=
  flat_map (fun s => flat_map (fun e => root_key (value e)) (overrides s)) c.

(** ** Roles and policies

    The roles the stack creates, the task role each task definition is
    given, the principals of the collection's data access policy, and the
    statement added to the state machine's role. *)
Module iam.
Record Role := { roleId : string; assumedBy : string }.
Record PolicyStatement := { actions : list string; resources : list string }.
End iam.

Definition osAdminRole : iam.Role :=
  {| iam.roleId := "OsAdminRole"; iam.assumedBy := "lambda.amazonaws.com" |}.
Definition osInitRole : iam.Role :=
  {| iam.roleId := "OsInitRole"; iam.assumedBy := "lambda.amazonaws.com" |}.
Definition ecsTaskRoleOS : iam.Role :=
  {| iam.roleId := "AppRole"; iam.assumedBy := "ecs-tasks.amazonaws.com" |}.

(** The role a task definition makes for itself when it is given none, as
    the subsampler's does ([subsamplerTask.taskRole]). *)
Definition subsamplerTaskRole : iam.Role :=
  {| iam.roleId := "SubsamplerTask/TaskRole";
     iam.assumedBy := "ecs-tasks.amazonaws.com" |}.

(** The [taskRole] of a task definition, by family: the one it is given,
    or the one it makes for itself. *)
Definition taskRole (td : FargateTaskDefinition) : option iam.Role :=
  alist_get (family td)
    [ ("SubsamplerTask", subsamplerTaskRole);
      ("InspectTask", ecsTaskRoleOS);
      ("DuplicateDetectionTask", ecsTaskRoleOS);
      ("CuratorTask", ecsTaskRoleOS) ].

(** The [Principal] list of [dataAccessPolicy]. *)
Definition dataAccessPolicyPrincipals : list iam.Role :=
  [osAdminRole; osInitRole; ecsTaskRoleOS].

Definition taskDefinitionArn (td : FargateTaskDefinition) : string := family td.

(** The statement of [sfnInspector.addToRolePolicy]. *)
Definition sfnInspectorRolePolicy : iam.PolicyStatement :=
  {| iam.actions := ["ecs:RunTask"];
     iam.resources :=
       [ taskDefinitionArn subsamplerTask;
         taskDefinitionArn inspectTask;
         taskDefinitionArn dupdetectTask;
         taskDefinitionArn curatorTask ] |}.

(** A statement allows an action on a resource it lists. *)
Definition allows (st : iam.PolicyStatement) (action resource : string) : bool :=
  existsb (String.eqb action) (iam.actions st) &&
  existsb (String.eqb resource) (iam.resources st).

(** * Properties *)

(** ** Key/value bags *)

Section AListFacts.
Variable V : Type.
Implicit Types (l : alist V) (k : string) (v : V).

Lemma alist_get_with_same l k v : alist_get k (alist_with k v l) = Some v.
Proof.
  induction l as [|[k' v'] rest IH]; simpl.
  - now rewrite String.eqb_refl.
  - destruct (String.eqb k k') eqn:E; simpl; rewrite E; auto.
Qed.

Lemma alist_get_with_other l k k' v :
  k' <> k -> alist_get k' (alist_with k v l) = alist_get k' l.
Proof.
  intros Hne. induction l as [|[k0 v0] rest IH]; simpl.
  - destruct (String.eqb_spec k' k); congruence.
  - destruct (String.eqb_spec k k0) as [->|Hk]; simpl.
    + destruct (String.eqb_spec k' k0); congruence.
    + destruct (String.eqb k' k0); auto.
Qed.

Lemma alist_keys_with l k v :
  alist_keys (alist_with k v l) =
  if existsb (String.eqb k) (alist_keys l) then alist_keys l
  else alist_keys l ++ [k].
Proof.
  unfold alist_keys. induction l as [|[k0 v0] rest IH]; simpl; auto.
  destruct (String.eqb k k0); simpl; auto.
  rewrite IH. destruct (existsb _ _); auto.
Qed.

Lemma alist_keys_with_incl l k v k' :
  In k' (alist_keys l) -> In k' (alist_keys (alist_with k v l)).
Proof.
  rewrite alist_keys_with. destruct (existsb _ _); auto.
  intros H. apply in_or_app; auto.
Qed.

Lemma alist_get_in_keys l k : alist_get k l <> None <-> In k (alist_keys l).
Proof.
  unfold alist_keys. induction l as [|[k0 v0] rest IH]; simpl.
  - tauto.
  - destruct (String.eqb_spec k k0) as [->|Hk].
    + split; auto. congruence.
    + rewrite IH. split; auto. intros [H|H]; congruence.
Qed.
End AListFacts.

(** ** Context *)

(** Claim C9.  For every Context [c] held at reference [r], key [k] and
    value [v], [with] succeeds and returns a new Context in which [get k]
    is [v] and [get k'] for every other key is what it was on [c]; every
    Context already in the store, the caller's included, reads exactly as
    before; and every key of [c] is still a key of the result, so the one
    operation that builds a Context removes nothing. *)
Theorem context_with_is_functional_update
  (s : ContextStore.t) (r : ContextStore.ref) (c : Context.t) (k v : string) :
  ContextStore.deref r s = Some c ->
  exists s' r',
    ContextStore.with_ r k v s = Some (s', r') /\
    ContextStore.deref r' s' = Some (Context.with_ k v c) /\
    ContextStore.get r' k s' = Some v /\
    (forall k', k' <> k -> ContextStore.get r' k' s' = Context.get k' c) /\
    (forall r0 c0, ContextStore.deref r0 s = Some c0 ->
                   ContextStore.deref r0 s' = Some c0) /\
    (forall k', ContextStore.get r k' s' = Context.get k' c) /\
    (forall k', In k' (Context.keys c) -> In k' (Context.keys (Context.with_ k v c))).
Proof.
  intros Hr. unfold ContextStore.with_, ContextStore.get. rewrite Hr.
  eexists _, _. split; [reflexivity|].
  assert (Hnew : ContextStore.deref (List.length s) (s ++ [Context.with_ k v c])
                 = Some (Context.with_ k v c)).
  { unfold ContextStore.deref. rewrite nth_error_app2, Nat.sub_diag; auto. }
  assert (Hold : forall r0 c0, ContextStore.deref r0 s = Some c0 ->
                 ContextStore.deref r0 (s ++ [Context.with_ k v c]) = Some c0).
  { unfold ContextStore.deref. intros r0 c0 H0.
    rewrite nth_error_app1; auto. apply nth_error_Some. congruence. }
  rewrite Hnew, (Hold _ _ Hr). repeat split; auto.
  - apply alist_get_with_same.
  - intros k' Hk. now apply alist_get_with_other.
  - intros k'. apply alist_keys_with_incl.
Qed.

Lemma context_with_is_functional_update_witness :
  ContextStore.deref 0 [scenario] = Some scenario /\
  exists s' r',
    ContextStore.with_ 0 "S3OutputFirst" "s3://b/1.csv" [scenario] = Some (s', r') /\
    ContextStore.deref r' s' = Some (Context.with_ "S3OutputFirst" "s3://b/1.csv" scenario) /\
    ContextStore.get r' "S3OutputFirst" s' = Some "s3://b/1.csv" /\
    (forall k', k' <> "S3OutputFirst" ->
                ContextStore.get r' k' s' = Context.get k' scenario) /\
    (forall r0 c0, ContextStore.deref r0 [scenario] = Some c0 ->
                   ContextStore.deref r0 s' = Some c0) /\
    (forall k', ContextStore.get 0 k' s' = Context.get k' scenario) /\
    (forall k', In k' (Context.keys scenario) ->
                In k' (Context.keys (Context.with_ "S3OutputFirst" "s3://b/1.csv" scenario))).
Proof.
  split; [reflexivity|].
  apply (context_with_is_functional_update [scenario] 0 scenario
           "S3OutputFirst" "s3://b/1.csv").
  reflexivity.
Defined.

(** ** The interpreter *)

Lemma launched_app h1 h2 : launched (h1 ++ h2) = launched h1 ++ launched h2.
Proof. unfold launched. now rewrite flat_map_app. Qed.

Lemma cancelled_app h1 h2 : cancelled (h1 ++ h2) = cancelled h1 ++ cancelled h2.
Proof. unfold cancelled. now rewrite flat_map_app. Qed.

Section RunFacts.
Variable deadline : nat.
Variable launch : Launcher.

(** Case analysis of one task state, following the interpreter's own
    branches. *)
Ltac stage_cases s h t d :=
  unfold run_stage;
  destruct (json_get (inputPath s) d) as [input|];
  [ destruct (resolve_env (overrides s) input) as [env|[field path]];
    [ destruct (integrationPattern s);
      [ | destruct (launch h s env) as [[dur [outs|c]]|];
          [ destruct (deadline <? t + dur)%nat | destruct (deadline <? t + dur)%nat | ]
        | destruct (launch h s env) as [[dur [outs|c]]|];
          [ destruct (deadline <? t + dur)%nat | destruct (deadline <? t + dur)%nat | ] ]
    | ]
  | ].

Lemma run_stage_advance_launches s h t d evs t' d' :
  run_stage deadline launch s h t d = (evs, inr (t', d')) ->
  exists input env, evs = [Launch (id s) input env].
Proof.
  stage_cases s h t d; intros H; inversion H; subst; eauto.
Qed.

Lemma run_stage_stops_unsuccessfully s h t d evs out :
  run_stage deadline launch s h t d <> (evs, inl (Succeeded out)).
Proof.
  stage_cases s h t d; intros H; inversion H.
Qed.

Lemma run_chain_stops_unsuccessfully c h t d h' out :
  run_chain deadline launch c h t d <> (h', inl (Succeeded out)).
Proof.
  revert h t d. induction c as [|s rest IH]; intros h t d; simpl.
  - discriminate.
  - destruct (run_stage deadline launch s h t d) as [evs [st|[t1 d1]]] eqn:E; auto.
    intros H. inversion H; subst.
    exact (run_stage_stops_unsuccessfully _ _ _ _ _ _ E).
Qed.

Lemma run_chain_app c1 c2 h t d :
  run_chain deadline launch (c1 ++ c2) h t d =
  match run_chain deadline launch c1 h t d with
  | (h', inl st) => (h', inl st)
  | (h', inr (t', d')) => run_chain deadline launch c2 h' t' d'
  end.
Proof.
  revert h t d. induction c1 as [|s rest IH]; intros h t d; simpl; auto.
  destruct (run_stage deadline launch s h t d) as [evs [st|[t' d']]]; auto.
Qed.

Lemma run_chain_advance_launched c h t d h' t' d' :
  run_chain deadline launch c h t d = (h', inr (t', d')) ->
  launched h' = launched h ++ map id c /\ cancelled h' = cancelled h.
Proof.
  revert h t d. induction c as [|s rest IH]; intros h t d; simpl.
  - intros H; inversion H; subst. now rewrite app_nil_r.
  - destruct (run_stage deadline launch s h t d) as [evs [st|[t1 d1]]] eqn:E; [discriminate|].
    intros H. apply IH in H. destruct H as [H1 H2].
    apply run_stage_advance_launches in E. destruct E as (input & env & ->).
    rewrite H1, H2, launched_app, cancelled_app. simpl.
    now rewrite <- app_assoc, app_nil_r.
Qed.

Lemma run_stage_passes_through s h t d evs r :
  passes_through s ->
  run_stage deadline launch s h t d = (evs, r) ->
  inputs_are d evs /\ (forall t' d', r = inr (t', d') -> d' = d).
Proof.
  intros [Hin Hres]. unfold run_stage. rewrite Hin, Hres. simpl.
  destruct (resolve_env (overrides s) d) as [env|[field path]].
  - destruct (integrationPattern s).
    + intros H; inversion H; subst. split.
      * intros s0 i0 e0 [E|[]]. now inversion E.
      * intros t' d' E. now inversion E.
    + destruct (launch h s env) as [[dur [outs|c]]|];
        [ destruct (deadline <? t + dur)%nat | destruct (deadline <? t + dur)%nat | ];
        intros H; inversion H; subst; (split;
          [ intros s0 i0 e0 Hi; simpl in Hi;
            repeat (destruct Hi as [Hi|Hi]; [now inversion Hi|]); destruct Hi
          | intros t' d' E; now inversion E ]).
    + destruct (launch h s env) as [[dur [outs|c]]|];
        [ destruct (deadline <? t + dur)%nat | destruct (deadline <? t + dur)%nat | ];
        intros H; inversion H; subst; (split;
          [ intros s0 i0 e0 Hi; simpl in Hi;
            repeat (destruct Hi as [Hi|Hi]; [now inversion Hi|]); destruct Hi
          | intros t' d' E; now inversion E ]).
  - intros H; inversion H; subst. split; [intros ? ? ? []|discriminate].
Qed.

Lemma run_chain_passes_through c h t d h' r :
  Forall passes_through c ->
  inputs_are d h ->
  run_chain deadline launch c h t d = (h', r) ->
  inputs_are d h' /\ (forall t' d', r = inr (t', d') -> d' = d).
Proof.
  intros Hc. revert h t. induction Hc as [|s rest Hs _ IH]; intros h t Hh; simpl.
  - intros H; inversion H; subst. split; auto. intros t' d' E; now inversion E.
  - destruct (run_stage deadline launch s h t d) as [evs r1] eqn:E.
    destruct (run_stage_passes_through _ _ _ _ _ _ Hs E) as [Hevs Hd].
    assert (Hh' : inputs_are d (h ++ evs)).
    { intros s0 i0 e0 Hi. apply in_app_or in Hi. destruct Hi; eauto. }
    destruct r1 as [st|[t1 d1]].
    + intros H; inversion H; subst. split; [assumption | intros ? ? ?; discriminate].
    + rewrite (Hd _ _ eq_refl). apply IH; auto.
Qed.
End RunFacts.

Lemma wf_chain_passes_through : Forall passes_through wf_chain.
Proof. repeat constructor. Qed.

(** ** The document seen by each stage *)

(** The interpreter does merge results where a state asks for it: the first
    stage with [resultPath] set to ['$.S3OutputFirst'] hands the second
    stage a changed document. *)
Example result_path_would_merge :
  snd (run_chain 1800 writing_launcher
         [merging_first_pass; runSubsamplerTaskSecondPass] [] 0
         (Context.to_json [("S3Input", "a"); ("S3OutputFirst", ""); ("S3OutputSecond", "")]))
  = inr (120,
         JObj [("S3Input", JStr "a");
               ("S3OutputFirst", JObj [("S3OutputFirst", JStr "written")]);
               ("S3OutputSecond", JStr "")]).
Proof. reflexivity. Qed.

(** Claim C10.  Whatever the launcher does and whatever is submitted, every
    launch that [sfnInspector] performs, the first and each later one, is
    handed a document equal to the submission, and a run that succeeds
    returns that same document: no stage's reported outputs are merged in
    between stages. *)
Theorem every_stage_receives_the_submission (launch : Launcher) (doc : json) :
  (forall s input env,
      In (Launch s input env) (fst (startExecution sfnInspector launch doc)) ->
      input = doc) /\
  (forall out,
      snd (startExecution sfnInspector launch doc) = Succeeded out -> out = doc) /\
  Forall (fun s => inputPath s = [] /\ resultPath s = DISCARD)
         (definition sfnInspector).
Proof.
  unfold startExecution.
  destruct (run_chain (timeout sfnInspector) launch (definition sfnInspector) [] 0 doc)
    as [h r] eqn:E.
  pose proof E as E'.
  apply run_chain_passes_through in E;
    [ | exact wf_chain_passes_through | intros ? ? ? [] ].
  destruct E as [Hh Hr]. split; [|split].
  - destruct r as [st|[t d]]; exact Hh.
  - destruct r as [st|[t d]]; simpl; intros out H.
    + subst st. now apply run_chain_stops_unsuccessfully in E'.
    + inversion H; subst. now apply (Hr t).
  - exact wf_chain_passes_through.
Qed.

(** ** Fail-fast *)

Section StageFailure.
Variable deadline : nat.
Variable launch : Launcher.

(** A stage that fails stops the run at once, with its own id and the
    cause. *)
Lemma stage_fails_stops s h t doc evs cause :
  stage_fails deadline launch s h t doc evs cause ->
  run_stage deadline launch s h t doc = (evs, inl (Failed (id s) cause)).
Proof.
  intros H. unfold run_stage.
  destruct H as [Hi|input field path Hi He|input env d c Hi He Hp Hl Ht].
  - now rewrite Hi.
  - now rewrite Hi, He.
  - rewrite Hi, He, Hl.
    apply Nat.ltb_ge in Ht. rewrite Ht.
    destruct (integrationPattern s); [congruence| |]; reflexivity.
Qed.

Lemma stage_fails_events s h t doc evs cause :
  stage_fails deadline launch s h t doc evs cause ->
  evs = [] \/ exists input env, evs = [Launch (id s) input env].
Proof. intros H. destruct H; eauto. Qed.
End StageFailure.

(** Claim C2.  In every run of every chain, if the states before position
    [i] all advance and the state [s] at position [i] fails (a path of [s]
    does not resolve in its document, or the launcher reports its task
    failed by the deadline), the run ends [Failed] naming [s] and the
    cause, and the history of the whole run is the history up to that
    failure: the states before [s] were each launched once, [s] at most
    once, nothing was cancelled, and nothing after [s] is ever launched,
    whatever follows [s] in the chain. *)
Theorem fail_fast
  (sm : StateMachine) (launch : Launcher) (doc : json)
  (pre post : Chain.t) (s : EcsRunTask)
  (h evs : list Event) (t : nat) (doc' : json) (cause : Cause) :
  definition sm = pre ++ s :: post ->
  run_chain (timeout sm) launch pre [] 0 doc = (h, inr (t, doc')) ->
  stage_fails (timeout sm) launch s h t doc' evs cause ->
  startExecution sm launch doc = (h ++ evs, Failed (id s) cause) /\
  (launched (h ++ evs) = map id pre \/ launched (h ++ evs) = map id (pre ++ [s])) /\
  cancelled (h ++ evs) = [] /\
  List.length (launched (h ++ evs)) <= S (List.length pre).
Proof.
  intros Hdef Hpre Hfail.
  pose proof (stage_fails_stops _ _ _ _ _ _ _ _ Hfail) as Hs.
  pose proof (stage_fails_events _ _ _ _ _ _ _ _ Hfail) as Hevs.
  destruct (run_chain_advance_launched _ _ _ _ _ _ _ _ _ Hpre) as [Hl Hc].
  simpl in Hl, Hc.
  assert (Hrun : startExecution sm launch doc = (h ++ evs, Failed (id s) cause)).
  { unfold startExecution. rewrite Hdef, run_chain_app, Hpre. simpl. now rewrite Hs. }
  split; [exact Hrun|].
  rewrite launched_app, cancelled_app, Hl, Hc.
  destruct Hevs as [->|(input & env & ->)]; simpl.
  - rewrite app_nil_r, length_map. repeat split; auto.
  - rewrite map_app. simpl. repeat split; auto.
    rewrite length_app, length_map. simpl. lia.
Qed.

Lemma fail_fast_witness :
  snd (startExecution sfnInspector (failing_at "RunInspectTask") (Context.to_json scenario))
  = Failed "RunInspectTask" (TaskFailedCause "exit code 1") /\
  launched (fst (startExecution sfnInspector (failing_at "RunInspectTask")
                   (Context.to_json scenario)))
  = ["SubsamplerFirstPass"; "SubsamplerSecondPass"; "RunInspectTask"].
Proof.
  set (launch := failing_at "RunInspectTask").
  set (doc := Context.to_json scenario).
  set (pre := [runSubsamplerTaskFirstPass; runSubsamplerTaskSecondPass]).
  set (h := fst (run_chain (timeout sfnInspector) launch pre [] 0 doc)).
  assert (Hfail : stage_fails (timeout sfnInspector) launch runInspectTask h 120 doc
                    [Launch (id runInspectTask) doc
                       [("S3_INPUT_1", ""); ("S3_INPUT_2", "");
                        ("S3_OUTPUT_1", ""); ("S3_OUTPUT_2", "")]]
                    (TaskFailedCause "exit code 1")).
  { apply (task_fails (timeout sfnInspector) launch runInspectTask h 120 doc doc
             [("S3_INPUT_1", ""); ("S3_INPUT_2", "");
              ("S3_OUTPUT_1", ""); ("S3_OUTPUT_2", "")] 60 "exit code 1");
      try reflexivity.
    - discriminate.
    - apply Nat.leb_le. vm_compute. reflexivity. }
  destruct (fail_fast sfnInspector launch doc pre [runDupdetectTask; runCuratorTask]
              runInspectTask h _ 120 doc _ eq_refl eq_refl Hfail)
    as (Hrun & _ & _ & _).
  rewrite Hrun. split; reflexivity.
Defined.

(** ** Global deadline *)

Section Deadline.
Variable sm : StateMachine.
Variable launch : Launcher.


End Deadline.

Lemma wf_chain_run_job s : In s wf_chain -> integrationPattern s = RUN_JOB.
Proof.
  simpl. intros H. repeat (destruct H as [<-|H]; [reflexivity|]). destruct H.
Qed.



(** ** Building the chain and resolving keys *)

Lemma froms_final (e : EcsRunTask) (rest : list EcsRunTask) :
  e :: rest = froms e rest ++ [final e rest].
Proof.
  revert e. induction rest as [|s r IH]; intros e; simpl; auto.
  now rewrite <- IH.
Qed.

Lemma NoDup_snoc (A : Type) (l : list A) (a : A) :
  NoDup l -> ~ In a l -> NoDup (l ++ [a]).
Proof.
  induction l as [|x l IH]; simpl; intros Hnd Hin.
  - constructor; [intros []|constructor].
  - inversion Hnd; subst. constructor.
    + intros H. apply in_app_or in H. destruct H as [H|[H|[]]]; auto.
    + apply IH; auto.
Qed.

(** Linking distinct states that have no next state yet succeeds, and the
    path from the first one is the order itself. *)
Lemma link_distinct (rest : list EcsRunTask) :
  forall e links,
    NoDup (map id (e :: rest)) ->
    (forall x, In x (e :: rest) -> alist_get (id x) links = None) ->
    exists links',
      link e links rest = inr links' /\
      (forall fuel, List.length rest <= fuel ->
                    follow fuel e links' = Some (e :: rest)) /\
      (forall k, ~ In k (map id (e :: rest)) ->
                 alist_get k links' = alist_get k links).
Proof.
  induction rest as [|s r IH]; intros e links Hnd Hfree.
  - exists links. repeat split; auto.
    intros fuel _. destruct fuel; simpl; now rewrite (Hfree e (or_introl eq_refl)).
  - cbn [link]. unfold makeNext. rewrite (Hfree e (or_introl eq_refl)).
    inversion Hnd as [|? ? Hne Hnd']; subst.
    destruct (IH s (alist_with (id e) s links) Hnd') as (links' & Hlink & Hfollow & Hframe).
    { intros x Hx. rewrite alist_get_with_other.
      - apply Hfree. now right.
      - intros Heq. apply Hne. rewrite <- Heq. exact (in_map id _ _ Hx). }
    exists links'. split; [exact Hlink|]. split.
    + intros fuel Hfuel. destruct fuel as [|fuel]; [simpl in Hfuel; lia|].
      cbn [follow]. rewrite (Hframe (id e) Hne), alist_get_with_same.
      rewrite Hfollow; [reflexivity|]. simpl in Hfuel. lia.
    + intros k Hk. rewrite Hframe.
      * apply alist_get_with_other. intros ->. apply Hk. now left.
      * intros Hin. apply Hk. now right.
Qed.

Lemma compile_distinct (order : list EcsRunTask) :
  order <> [] -> NoDup (map id order) -> compile order = Plan order.
Proof.
  destruct order as [|first rest]; [congruence|]. intros _ Hnd.
  destruct (link_distinct rest first [] Hnd) as (links & Hlink & Hfollow & _).
  { intros x _. reflexivity. }
  unfold compile. now rewrite Hlink, (Hfollow _ (le_n _)).
Qed.

(** Whatever the order, linking that does not throw has given each state
    but the last a next state among the order's, once each. *)
Lemma link_made (rest : list EcsRunTask) :
  forall e links links',
    link e links rest = inr links' ->
    NoDup (map id (froms e rest)) /\
    (forall x, In x (froms e rest) -> alist_get (id x) links = None) /\
    (forall x, In x (froms e rest) ->
               exists y, In y rest /\ alist_get (id x) links' = Some y) /\
    (forall k, ~ In k (map id (froms e rest)) ->
               alist_get k links' = alist_get k links).
Proof.
  induction rest as [|s r IH]; intros e links links'; cbn [link froms].
  - intros H; inversion H; subst. repeat split; auto; try constructor; intros x [].
  - unfold makeNext. destruct (alist_get (id e) links) eqn:Hfree; [discriminate|].
    intros Hlink.
    destruct (IH s _ _ Hlink) as (Hnd & Hnone & Hsome & Hframe).
    assert (Hnew : forall x, In x (froms s r) -> id x <> id e).
    { intros x Hx Heq. specialize (Hnone x Hx).
      rewrite Heq, alist_get_with_same in Hnone. discriminate. }
    assert (Hne : ~ In (id e) (map id (froms s r))).
    { intros Hin. apply in_map_iff in Hin. destruct Hin as (x & Heq & Hx).
      exact (Hnew x Hx Heq). }
    repeat split.
    + simpl. constructor; auto.
    + intros x [<-|Hx]; auto.
      specialize (Hnone x Hx). rewrite alist_get_with_other in Hnone; auto.
    + intros x [<-|Hx].
      * exists s. split; [now left|].
        now rewrite (Hframe _ Hne), alist_get_with_same.
      * destruct (Hsome x Hx) as (y & Hy & Hg). exists y. split; [now right|exact Hg].
    + intros k Hk. rewrite Hframe.
      * apply alist_get_with_other. intros ->. apply Hk. now left.
      * intros Hin. apply Hk. now right.
Qed.

(** Where every state has a next state among the same states, no path
    ends. *)
Lemma follow_loops (pool : list EcsRunTask) (links : Links) :
  (forall x, In x pool -> exists y, In y pool /\ alist_get (id x) links = Some y) ->
  forall fuel x, In x pool -> follow fuel x links = None.
Proof.
  intros Hnext. induction fuel as [|fuel IH]; intros x Hx;
    destruct (Hnext x Hx) as (y & Hy & Hg); simpl; rewrite Hg; auto.
  now rewrite (IH y Hy).
Qed.

(** A plan is built exactly from the orders that name no state twice, and
    it is then the order itself. *)
Lemma compile_plan (order : list EcsRunTask) (c : Chain.t) :
  compile order = Plan c <-> order <> [] /\ NoDup (map id order) /\ c = order.
Proof.
  split.
  - destruct order as [|first rest]; [discriminate|]. intros H.
    assert (Hnd : NoDup (map id (first :: rest))).
    { unfold compile in H.
      destruct (link first [] rest) as [st|links] eqn:Hlink; [discriminate|].
      destruct (follow (List.length rest) first links) as [c'|] eqn:Hfollow;
        [|discriminate].
      destruct (link_made rest first [] links Hlink) as (Hnd & _ & Hsome & Hframe).
      rewrite (froms_final first rest), map_app. simpl.
      apply NoDup_snoc; [exact Hnd|]. intros Hin.
      assert (Hloop : forall x, In x (first :: rest) ->
                 exists y, In y (first :: rest) /\ alist_get (id x) links = Some y).
      { intros x Hx. rewrite (froms_final first rest) in Hx.
        apply in_app_or in Hx. destruct Hx as [Hx|[<-|[]]].
        - destruct (Hsome x Hx) as (y & Hy & Hg). exists y. split; [now right|exact Hg].
        - apply in_map_iff in Hin. destruct Hin as (x' & Heq & Hx').
          destruct (Hsome x' Hx') as (y & Hy & Hg). exists y.
          split; [now right|]. now rewrite <- Heq. }
      rewrite (follow_loops _ _ Hloop _ first (or_introl eq_refl)) in Hfollow.
      discriminate. }
    repeat split; [discriminate|exact Hnd|].
    rewrite compile_distinct in H; [now inversion H|discriminate|exact Hnd].
  - intros (Hne & Hnd & ->). now apply compile_distinct.
Qed.

(** The stack's own chain is what linking its five states builds. *)
Lemma wf_chain_compiled :
  compile [runSubsamplerTaskFirstPass; runSubsamplerTaskSecondPass; runInspectTask;
           runDupdetectTask; runCuratorTask] = Plan wf_chain.
Proof. reflexivity. Qed.

(** An order that comes back to a state already left throws at that state;
    one that names a state twice in a row links it to itself. *)
Example repeated_state_throws :
  compile [runSubsamplerTaskFirstPass; runSubsamplerTaskSecondPass;
           runSubsamplerTaskFirstPass; runInspectTask]
  = StateAlreadyHasNextState "SubsamplerFirstPass".
Proof. reflexivity. Qed.

Example doubled_state_loops :
  compile [runSubsamplerTaskFirstPass; runSubsamplerTaskFirstPass] = NoTerminalState.
Proof. reflexivity. Qed.

Lemma resolve_env_missing (env : list EnvOverride) (input : json) (e : EnvOverride) :
  In e env -> stringAt (value e) input = None ->
  exists field path,
    resolve_env env input = inr (field, path) /\ stringAt path input = None.
Proof.
  induction env as [|e0 rest IH]; simpl; [tauto|].
  intros [->|Hin] Hnone.
  - rewrite Hnone. eauto.
  - destruct (stringAt (value e0) input) eqn:E0; [|eauto].
    destruct (IH Hin Hnone) as (field & path & -> & Hp). eauto.
Qed.

(** Claim C1, as the code has it.  Building the definition from a requested
    order of pairwise distinct stages succeeds and returns the order
    unchanged; it is given no Context and checks no key.  A key is
    missed only when the run reaches the stage that refers to it: if the
    stages before [s] have advanced and one override of [s] names a path
    with no string in the stage's input, the run ends [Failed] at [s] with a
    path failure naming an unresolved path, the task of [s] is not launched,
    and the tasks of all the stages before [s] have been launched. *)
Theorem keys_are_checked_when_a_stage_is_reached
  (order : list EcsRunTask) (deadline : nat) (launch : Launcher) (doc : json)
  (pre post : Chain.t) (s : EcsRunTask) (h : list Event) (t : nat)
  (doc' input : json) (e : EnvOverride) :
  NoDup (map id order) ->
  order = pre ++ s :: post ->
  run_chain deadline launch pre [] 0 doc = (h, inr (t, doc')) ->
  json_get (inputPath s) doc' = Some input ->
  In e (overrides s) ->
  stringAt (value e) input = None ->
  compile order = Plan order /\
  exists field path,
    stringAt path input = None /\
    startExecution {| definition := order; timeout := deadline |} launch doc
    = (h, Failed (id s) (PathFailure field path)) /\
    launched h = map id pre.
Proof.
  intros Hnd Horder Hpre Hin He Hnone. split.
  - apply compile_distinct; [|exact Hnd]. subst order. now destruct pre.
  - destruct (resolve_env_missing _ _ _ He Hnone) as (field & path & Hres & Hp).
    exists field, path. split; [exact Hp|]. split.
    + unfold startExecution. simpl. rewrite Horder, run_chain_app, Hpre. simpl.
      unfold run_stage. rewrite Hin, Hres. now rewrite app_nil_r.
    + now destruct (run_chain_advance_launched _ _ _ _ _ _ _ _ _ Hpre).
Qed.

Lemma distinct_pair : NoDup (map id [runSubsamplerTaskFirstPass; runInspectTask]).
Proof.
  repeat constructor; simpl; intuition discriminate.
Defined.

Lemma keys_are_checked_when_a_stage_is_reached_witness :
  compile [runSubsamplerTaskFirstPass; runInspectTask]
  = Plan [runSubsamplerTaskFirstPass; runInspectTask] /\
  exists field path,
    stringAt path (Context.to_json [("S3Input", "a"); ("S3OutputFirst", "b")]) = None /\
    startExecution
      {| definition := [runSubsamplerTaskFirstPass; runInspectTask]; timeout := 1800 |}
      silent_success (Context.to_json [("S3Input", "a"); ("S3OutputFirst", "b")])
    = ([Launch "SubsamplerFirstPass"
          (Context.to_json [("S3Input", "a"); ("S3OutputFirst", "b")])
          [("S3_INPUT", "a"); ("S3_OUTPUT", "b")]],
       Failed (id runInspectTask) (PathFailure field path)) /\
    launched [Launch "SubsamplerFirstPass"
                (Context.to_json [("S3Input", "a"); ("S3OutputFirst", "b")])
                [("S3_INPUT", "a"); ("S3_OUTPUT", "b")]]
    = map id [runSubsamplerTaskFirstPass].
Proof.
  exact (keys_are_checked_when_a_stage_is_reached
           [runSubsamplerTaskFirstPass; runInspectTask] 1800 silent_success
           (Context.to_json [("S3Input", "a"); ("S3OutputFirst", "b")])
           [runSubsamplerTaskFirstPass] [] runInspectTask
           [Launch "SubsamplerFirstPass"
              (Context.to_json [("S3Input", "a"); ("S3OutputFirst", "b")])
              [("S3_INPUT", "a"); ("S3_OUTPUT", "b")]]
           60
           (Context.to_json [("S3Input", "a"); ("S3OutputFirst", "b")])
           (Context.to_json [("S3Input", "a"); ("S3OutputFirst", "b")])
           {| name := "S3_INPUT_2"; value := ["S3OutputSecond"] |}
           distinct_pair
           eq_refl eq_refl eq_refl (or_intror (or_introl eq_refl)) eq_refl).
Defined.

(** Claim C1 as worded fails: for the order subsample-first, inspect and the
    initial keys [S3Input], [S3OutputFirst], the forward key check of section
    4.3 reports [MissingInput] for the inspect stage, yet the definition is
    built, and running it launches the first task before the run fails at
    the inspect stage with a path failure. *)
Lemma chain_is_built_without_key_check :
  spec_walk (Context.keys [("S3Input", "a"); ("S3OutputFirst", "b")])
            [runSubsamplerTaskFirstPass; runInspectTask]
  = Some (MissingInput "RunInspectTask" "S3OutputSecond") /\
  compile [runSubsamplerTaskFirstPass; runInspectTask]
  = Plan [runSubsamplerTaskFirstPass; runInspectTask] /\
  ~ ((exists plan, compile [runSubsamplerTaskFirstPass; runInspectTask] = Plan plan) <->
     spec_walk (Context.keys [("S3Input", "a"); ("S3OutputFirst", "b")])
               [runSubsamplerTaskFirstPass; runInspectTask] = None) /\
  startExecution
    {| definition := [runSubsamplerTaskFirstPass; runInspectTask]; timeout := 1800 |}
    silent_success (Context.to_json [("S3Input", "a"); ("S3OutputFirst", "b")])
  = ([Launch "SubsamplerFirstPass"
        (Context.to_json [("S3Input", "a"); ("S3OutputFirst", "b")])
        [("S3_INPUT", "a"); ("S3_OUTPUT", "b")]],
     Failed "RunInspectTask" (PathFailure "S3_INPUT_2" ["S3OutputSecond"])).
Proof.
  repeat split.
  intros [Hplan _].
  assert (H : spec_walk (Context.keys [("S3Input", "a"); ("S3OutputFirst", "b")])
                        [runSubsamplerTaskFirstPass; runInspectTask] = None).
  { apply Hplan. eexists. reflexivity. }
  discriminate H.
Qed.

(** ** What happens to a task's reported outputs *)

(** Claim C5, as the code has it.  Each stage of [sfnInspector] discards its
    result: when the launcher reports success before the deadline, the run
    moves on with the document it had, whatever outputs were reported and
    whether or not they name the stage's output keys. *)
Theorem reported_outputs_are_discarded
  (launch : Launcher) (s : EcsRunTask) (h : list Event) (t d : nat)
  (doc outputs : json) (env : list (string * string)) :
  In s (definition sfnInspector) ->
  resolve_env (overrides s) doc = inl env ->
  launch h s env = Some (d, TaskSucceeded outputs) ->
  t + d <= timeout sfnInspector ->
  run_stage (timeout sfnInspector) launch s h t doc
  = ([Launch (id s) doc env], inr (t + d, doc)).
Proof.
  intros Hs Henv Hl Ht.
  pose proof (wf_chain_run_job s Hs) as Hp.
  pose proof wf_chain_passes_through as Hall.
  rewrite Forall_forall in Hall. destruct (Hall s Hs) as [Hi Hr].
  unfold run_stage. rewrite Hi. cbn [json_get]. rewrite Henv, Hp, Hl, Hr.
  apply Nat.ltb_ge in Ht. now rewrite Ht.
Qed.

Lemma reported_outputs_are_discarded_witness :
  run_stage (timeout sfnInspector) silent_success runSubsamplerTaskFirstPass [] 0
            (Context.to_json scenario)
  = ([Launch (id runSubsamplerTaskFirstPass) (Context.to_json scenario)
        [("S3_INPUT", "a"); ("S3_OUTPUT", "")]],
     inr (0 + 60, Context.to_json scenario)).
Proof.
  apply (reported_outputs_are_discarded silent_success runSubsamplerTaskFirstPass
           [] 0 60 (Context.to_json scenario) (JObj [])
           [("S3_INPUT", "a"); ("S3_OUTPUT", "")]).
  - left. reflexivity.
  - reflexivity.
  - reflexivity.
  - apply Nat.leb_le. vm_compute. reflexivity.
Defined.

(** Claim C5 as worded fails: every task of the five-stage run reports
    success with no outputs at all, so the first stage's output key
    [S3OutputFirst] is not among them; the run is nevertheless [Succeeded],
    all five stages having been launched. *)
Lemma success_without_outputs_is_accepted :
  output_keys runSubsamplerTaskFirstPass = ["S3OutputFirst"] /\
  silent_success [] runSubsamplerTaskFirstPass [("S3_INPUT", "a"); ("S3_OUTPUT", "")]
  = Some (60, TaskSucceeded (JObj [])) /\
  json_get ["S3OutputFirst"] (JObj []) = None /\
  snd (startExecution sfnInspector silent_success (Context.to_json scenario))
  = Succeeded (Context.to_json scenario) /\
  launched (fst (startExecution sfnInspector silent_success (Context.to_json scenario)))
  = ["SubsamplerFirstPass"; "SubsamplerSecondPass"; "RunInspectTask";
     "RunDupdetectTask"; "RunCuratorTask"].
Proof. repeat split. Qed.

(** ** The end-to-end scenario *)

Section AllSucceed.
Variable deadline : nat.
Variable launch : Launcher.
Variable D : nat.
Hypothesis prompt :
  forall h s env, exists outputs d,
    launch h s env = Some (d, TaskSucceeded outputs) /\ d <= D.

Lemma run_chain_all_succeed (doc : json) (c : Chain.t) :
  Forall passes_through c ->
  Forall (fun s => exists env, resolve_env (overrides s) doc = inl env) c ->
  forall h t,
    t + List.length c * D <= deadline ->
    exists h' t',
      run_chain deadline launch c h t doc = (h', inr (t', doc)) /\
      t' <= t + List.length c * D.
Proof.
  intros Hpass. induction Hpass as [|s rest [Hi Hr] _ IH]; intros Hres h t Ht.
  - simpl. exists h, t. split; auto. simpl in Ht. lia.
  - inversion Hres as [|? ? [env Henv] Hrest]; subst. simpl in Ht |- *.
    assert (Hstage : exists evs t1,
               run_stage deadline launch s h t doc = (evs, inr (t1, doc)) /\
               t1 <= t + D).
    { unfold run_stage. rewrite Hi. simpl. rewrite Henv, Hr.
      destruct (integrationPattern s).
      - eexists _, _. split; [reflexivity|lia].
      - destruct (prompt h s env) as (outs & d & -> & Hd).
        assert (Hlt : (deadline <? t + d)%nat = false) by (apply Nat.ltb_ge; lia).
        rewrite Hlt. eexists _, _. split; [reflexivity|lia].
      - destruct (prompt h s env) as (outs & d & -> & Hd).
        assert (Hlt : (deadline <? t + d)%nat = false) by (apply Nat.ltb_ge; lia).
        rewrite Hlt. eexists _, _. split; [reflexivity|lia]. }
    destruct Hstage as (evs & t1 & -> & Ht1).
    destruct (IH Hrest (h ++ evs) t1) as (h' & t' & Hrun & Ht'); [lia|].
    exists h', t'. split; [exact Hrun|lia].
Qed.
End AllSucceed.





(** ** Submission and the bootstrap resource *)

Lemma run_chain_history_grows deadline launch (c : Chain.t) h t d h' r :
  run_chain deadline launch c h t d = (h', r) -> exists tail, h' = h ++ tail.
Proof.
  revert h t d. induction c as [|s rest IH]; intros h t d; simpl.
  - intros H; inversion H; subst. exists []. now rewrite app_nil_r.
  - destruct (run_stage deadline launch s h t d) as [evs [st|[t1 d1]]].
    + intros H; inversion H; subst. eauto.
    + intros H. apply IH in H. destruct H as [tail ->].
      exists (evs ++ tail). now rewrite app_assoc.
Qed.

Lemma startExecution_first_event sm launch doc s rest e evs r :
  definition sm = s :: rest ->
  run_stage (timeout sm) launch s [] 0 doc = (e :: evs, r) ->
  exists tail, fst (startExecution sm launch doc) = e :: tail.
Proof.
  intros Hdef Hs. unfold startExecution. rewrite Hdef. cbn [run_chain].
  rewrite Hs. cbn [app].
  destruct r as [st|[t1 d1]]; [simpl; eauto|].
  destruct (run_chain (timeout sm) launch rest (e :: evs) t1 d1) as [h' r'] eqn:E.
  apply run_chain_history_grows in E. destruct E as [tail ->].
  destruct r' as [st|[t2 d2]]; simpl; eauto.
Qed.

(** Claim C8, as the code has it.  Starting a run does not consult the
    bootstrap resource.  Whatever state the resource is in, and however the
    outside world behaves in that state, a submission in which the first
    stage's keys resolve is accepted and its first stage is launched on the
    submitted document. *)
Theorem submission_ignores_the_bootstrap_resource
  (res : Bootstrap.BootstrapResource) (world : Bootstrap.BootstrapResource -> Launcher)
  (doc : json) (env : list (string * string)) :
  resolve_env (overrides runSubsamplerTaskFirstPass) doc = inl env ->
  exists rest,
    fst (startExecution sfnInspector (world res) doc)
    = Launch "SubsamplerFirstPass" doc env :: rest.
Proof.
  intros Henv.
  assert (Hstage : exists r,
             run_stage (timeout sfnInspector) (world res) runSubsamplerTaskFirstPass [] 0 doc
             = (Launch "SubsamplerFirstPass" doc env :: fst r, snd r)).
  { unfold run_stage. cbn [inputPath runSubsamplerTaskFirstPass json_get].
    rewrite Henv. cbn [integrationPattern id resultPath apply_result].
    destruct (world res [] _ env) as [[d [outs|c]]|].
    - destruct (_ <? _)%nat; [exists ([Cancel "SubsamplerFirstPass"], inl TimedOut)
                             | eexists ([], _)]; reflexivity.
    - destruct (_ <? _)%nat; [exists ([Cancel "SubsamplerFirstPass"], inl TimedOut)
                             | eexists ([], _)]; reflexivity.
    - exists ([Cancel "SubsamplerFirstPass"], inl TimedOut). reflexivity. }
  destruct Hstage as [[evs r] Hstage]. cbn [fst snd] in Hstage.
  exact (startExecution_first_event sfnInspector (world res) doc _ _ _ _ _
           eq_refl Hstage).
Qed.

Lemma submission_ignores_the_bootstrap_resource_witness :
  exists rest,
    fst (startExecution sfnInspector (index_dependent_launcher Bootstrap.failed)
           (Context.to_json scenario))
    = Launch "SubsamplerFirstPass" (Context.to_json scenario)
        [("S3_INPUT", "a"); ("S3_OUTPUT", "")] :: rest.
Proof.
  exact (submission_ignores_the_bootstrap_resource Bootstrap.failed
           index_dependent_launcher (Context.to_json scenario)
           [("S3_INPUT", "a"); ("S3_OUTPUT", "")] eq_refl).
Defined.

(** Claim C8 as worded fails: the plan includes duplicate detection and
    curation, the resource is [absent], and the jobs that use the index fail
    without it; the submission is not rejected, three stages run, and the
    run fails mid-chain at the duplicate-detection stage. *)
Lemma run_starts_without_the_index :
  uses_index runDupdetectTask = true /\
  uses_index runCuratorTask = true /\
  Bootstrap.is_ready Bootstrap.absent = false /\
  snd (startExecution sfnInspector (index_dependent_launcher Bootstrap.absent)
         (Context.to_json scenario))
  = Failed "RunDupdetectTask" (TaskFailedCause "index_not_found_exception") /\
  launched (fst (startExecution sfnInspector (index_dependent_launcher Bootstrap.absent)
                   (Context.to_json scenario)))
  = ["SubsamplerFirstPass"; "SubsamplerSecondPass"; "RunInspectTask"; "RunDupdetectTask"].
Proof. repeat split. Qed.

(** ** The bootstrap handler *)

Section HandlerFacts.
Import Bootstrap.
Variable svc : Service.
Variable unspecified : RequestType -> State -> State * Outcome.

Lemma creates_when_ready (n : nat) (log : list Call) :
  apply_all svc unspecified (repeat Create n) {| resource := ready; calls := log |}
  = ({| resource := ready; calls := log |}, repeat Success n).
Proof.
  induction n as [|n IH]; simpl; auto.
  now rewrite IH.
Qed.
End HandlerFacts.

(** Claim C3.  If the service acknowledges the creation, a resource that
    starts [absent] is [ready] after its first [Create], having issued one
    creation call; from then on, and from any [ready] state, every further
    [Create] (two in sequence, or any number) reports [Success] and leaves
    the resource and the list of calls exactly as they were, so one
    creation call is all the resource's lifetime holds. *)
Theorem create_is_idempotent
  (svc : Bootstrap.Service)
  (unspecified : Bootstrap.RequestType -> Bootstrap.State ->
                 Bootstrap.State * Bootstrap.Outcome)
  (log : list Bootstrap.Call) (n : nat) :
  Bootstrap.createIndex_ack svc [] INDEX = true ->
  Bootstrap.apply_all svc unspecified [Bootstrap.Create; Bootstrap.Create]
    {| Bootstrap.resource := Bootstrap.ready; Bootstrap.calls := log |}
  = ({| Bootstrap.resource := Bootstrap.ready; Bootstrap.calls := log |},
     [Bootstrap.Success; Bootstrap.Success]) /\
  Bootstrap.apply_all svc unspecified (repeat Bootstrap.Create n)
    {| Bootstrap.resource := Bootstrap.ready; Bootstrap.calls := log |}
  = ({| Bootstrap.resource := Bootstrap.ready; Bootstrap.calls := log |},
     repeat Bootstrap.Success n) /\
  Bootstrap.apply_all svc unspecified (repeat Bootstrap.Create (S n)) Bootstrap.initial
  = ({| Bootstrap.resource := Bootstrap.ready;
        Bootstrap.calls := [Bootstrap.createIndex INDEX] |},
     repeat Bootstrap.Success (S n)) /\
  Bootstrap.creation_calls
    (Bootstrap.calls
       (fst (Bootstrap.apply_all svc unspecified (repeat Bootstrap.Create (S n))
               Bootstrap.initial))) = 1.
Proof.
  intros Hack.
  assert (Hlife :
    Bootstrap.apply_all svc unspecified (repeat Bootstrap.Create (S n)) Bootstrap.initial
    = ({| Bootstrap.resource := Bootstrap.ready;
          Bootstrap.calls := [Bootstrap.createIndex INDEX] |},
       repeat Bootstrap.Success (S n))).
  { cbn [repeat Bootstrap.apply_all Bootstrap.apply Bootstrap.initial
         Bootstrap.resource Bootstrap.calls app].
    rewrite Hack. now rewrite creates_when_ready. }
  split; [reflexivity|]. split; [apply creates_when_ready|].
  split; [exact Hlife|]. now rewrite Hlife.
Qed.

Lemma create_is_idempotent_witness :
  Bootstrap.apply_all always_ack refuse (repeat Bootstrap.Create 3) Bootstrap.initial
  = ({| Bootstrap.resource := Bootstrap.ready;
        Bootstrap.calls := [Bootstrap.createIndex INDEX] |},
     repeat Bootstrap.Success 3) /\
  Bootstrap.creation_calls
    (Bootstrap.calls
       (fst (Bootstrap.apply_all always_ack refuse (repeat Bootstrap.Create 3)
               Bootstrap.initial))) = 1.
Proof.
  destruct (create_is_idempotent always_ack refuse [] 2 eq_refl) as (_ & _ & H1 & H2).
  split; [exact H1 | exact H2].
Defined.

(** ** Concurrent creation *)

Section ConcurrentFacts.
Import Bootstrap.
Variable svc : Service.
Variable unspecified : RequestType -> State -> State * Outcome.

Lemma run_app (s1 s2 : list Caller) (c : Config) :
  run svc unspecified (s1 ++ s2) c
  = run svc unspecified s2 (run svc unspecified s1 c).
Proof. unfold run. apply fold_left_app. Qed.

Lemma overlapping_app (s1 s2 : list Caller) (c : Config) :
  overlapping svc unspecified (s1 ++ s2) c
  = overlapping svc unspecified s1 c &&
    overlapping svc unspecified s2 (run svc unspecified s1 c).
Proof.
  revert c. induction s1 as [|i s1 IH]; intros c; simpl.
  - destruct s2; simpl; destruct (overlap c); auto.
  - rewrite IH. now rewrite andb_assoc.
Qed.

Lemma overlapping_head (sched : list Caller) (c : Config) :
  overlapping svc unspecified sched c = true -> overlap c = true.
Proof. destruct sched; simpl; intros H; apply andb_true_iff in H; tauto. Qed.

Lemma start_invariant : invariant svc start.
Proof. unfold invariant. simpl. auto. Qed.

Ltac unfold_step :=
  cbv [step pc set_pc other shared resource calls pcFirst pcSecond
       overlap has_returned has_arrived negb andb] in *.

Ltac pick_leader :=
  first [ exists First; unfold_step; now auto 6
        | exists Second; unfold_step; now auto 6 ].

Lemma step_invariant (i : Caller) (c : Config) :
  invariant svc c -> overlap c = true -> overlap (step svc unspecified i c) = true ->
  invariant svc (step svc unspecified i c).
Proof.
  destruct c as [[res log] p1 p2]. unfold invariant, follower, settled.
  destruct res; cbn [shared resource calls pcFirst pcSecond].
  - intros (-> & -> & ->) _ _. destruct i; unfold_step; pick_leader.
  - intros [l [Hf Hl]] Ho Ho'.
    destruct l, i; unfold_step;
      destruct Hf as [->| ->]; destruct Hl as [[-> ->]|[-> ->]];
      try discriminate; try pick_leader;
      destruct (createIndex_ack svc [] INDEX) eqn:Hack;
      try discriminate; repeat split; auto; pick_leader.
  - intros (Hack & -> & [l [Hl Hs]]) Ho Ho'.
    destruct l, i; unfold_step; subst; destruct Hs as [->| ->];
      try discriminate; repeat split; auto; pick_leader.
  - intros (Hack & -> & [l [Hl Hs]]) Ho Ho'.
    destruct l, i; unfold_step; subst; destruct Hs as [->| ->];
      try discriminate; repeat split; auto; pick_leader.
  - tauto.
Qed.
Lemma run_invariant (sched : list Caller) (c : Config) :
  invariant svc c -> overlapping svc unspecified sched c = true ->
  invariant svc (run svc unspecified sched c) /\
  overlap (run svc unspecified sched c) = true.
Proof.
  revert c. induction sched as [|i rest IH]; intros c Hinv Hov.
  - split; [exact Hinv|]. exact (overlapping_head _ _ Hov).
  - cbn [overlapping] in Hov. apply andb_true_iff in Hov. destruct Hov as [Hc Hrest].
    change (run svc unspecified (i :: rest) c)
      with (run svc unspecified rest (step svc unspecified i c)).
    apply IH; [|exact Hrest].
    apply step_invariant; auto. exact (overlapping_head _ _ Hrest).
Qed.

Lemma invariant_one_call (c : Config) :
  invariant svc c -> creation_calls (calls (shared c)) <= 1.
Proof.
  destruct c as [[res log] p1 p2]. unfold invariant.
  destruct res; cbn [shared resource calls].
  - intros (-> & _). auto.
  - intros [l [_ [[_ ->]|[_ ->]]]]; auto.
  - intros (_ & -> & _). auto.
  - intros (_ & -> & _). auto.
  - tauto.
Qed.

Lemma invariant_returned (c : Config) (o1 o2 : Outcome) :
  invariant svc c -> pcFirst c = Returned o1 -> pcSecond c = Returned o2 ->
  calls (shared c) = [createIndex INDEX] /\ o1 = o2 /\
  o1 = (if createIndex_ack svc [] INDEX then Success else Failure).
Proof.
  destruct c as [[res log] p1 p2]. unfold invariant, follower, settled.
  destruct res; cbn [shared resource calls pcFirst pcSecond]; intros H -> ->.
  - destruct H as (_ & H & _). discriminate.
  - destruct H as [l [Hf Hl]].
    destruct l; unfold_step; destruct Hf as [Hf|Hf]; discriminate.
  - destruct H as (-> & -> & [l [Hl Hs]]).
    destruct l; unfold_step; destruct Hs as [Hs|Hs]; try discriminate;
      inversion Hl; inversion Hs; subst; auto.
  - destruct H as (-> & -> & [l [Hl Hs]]).
    destruct l; unfold_step; destruct Hs as [Hs|Hs]; try discriminate;
      inversion Hl; inversion Hs; subst; auto.
  - tauto.
Qed.

(** Evaluating a schedule one step at a time, innermost step first, with
    the service's acknowledgment already decided by [Hack]. *)
Ltac step_once Hack :=
  match goal with
  | |- context [step ?svc ?u ?i {| shared := ?s; pcFirst := ?p; pcSecond := ?q |}] =>
      let r := eval cbv [step pc set_pc shared resource calls pcFirst pcSecond app]
               in (step svc u i {| shared := s; pcFirst := p; pcSecond := q |}) in
      change (step svc u i {| shared := s; pcFirst := p; pcSecond := q |}) with r;
      rewrite ?Hack
  end.

Ltac run_finish Hack :=
  cbv [finish has_arrived pcFirst pcSecond app run fold_left overlapping];
  repeat step_once Hack;
  cbv [overlap has_returned has_arrived pcFirst pcSecond negb andb];
  eauto.

Lemma finish_returns (c : Config) :
  invariant svc c -> overlap c = true ->
  overlapping svc unspecified (finish c) c = true /\
  exists o, pcFirst (run svc unspecified (finish c) c) = Returned o /\
            pcSecond (run svc unspecified (finish c) c) = Returned o.
Proof.
  destruct c as [[res log] p1 p2]. unfold invariant, follower, settled.
  destruct (createIndex_ack svc [] INDEX) eqn:Hack;
    destruct res; cbn [shared resource calls pcFirst pcSecond];
    try tauto; try (intros (Hf & _); discriminate Hf).
  - intros (-> & -> & ->) _. run_finish Hack.
  - intros [l [Hf Hl]] Ho.
    destruct l; cbv [pc other pcFirst pcSecond] in Hf, Hl;
      destruct Hf as [->| ->]; destruct Hl as [[-> ->]|[-> ->]]; run_finish Hack.
  - intros (_ & -> & [l [Hl Hs]]) Ho.
    destruct l; cbv [pc other pcFirst pcSecond] in Hl, Hs;
      subst; destruct Hs as [->| ->]; run_finish Hack.
  - intros (-> & -> & ->) _. run_finish Hack.
  - intros [l [Hf Hl]] Ho.
    destruct l; cbv [pc other pcFirst pcSecond] in Hf, Hl;
      destruct Hf as [->| ->]; destruct Hl as [[-> ->]|[-> ->]]; run_finish Hack.
  - intros (_ & -> & [l [Hl Hs]]) Ho.
    destruct l; cbv [pc other pcFirst pcSecond] in Hl, Hs;
      subst; destruct Hs as [->| ->]; run_finish Hack.
Qed.
End ConcurrentFacts.

(** Claim C7.  Take two invocations of [Create] for the one resource,
    starting from [absent], interleaved by any schedule under which they
    overlap.  At every point at most one creation call has been issued; if
    both have returned, exactly one creation call was issued and both
    returned the same outcome, the one the service's acknowledgment decides;
    and the schedule can always be continued, still overlapping, until both
    have returned.  The invocation that arrives second finds the resource
    [creating], waits, and returns what the first one settled. *)
Theorem concurrent_creates_issue_one_call
  (svc : Bootstrap.Service)
  (unspecified : Bootstrap.RequestType -> Bootstrap.State ->
                 Bootstrap.State * Bootstrap.Outcome)
  (sched : list Bootstrap.Caller) :
  Bootstrap.concurrent svc unspecified sched = true ->
  Bootstrap.creation_calls
    (Bootstrap.calls
       (Bootstrap.shared (Bootstrap.run svc unspecified sched Bootstrap.start))) <= 1 /\
  (forall o1 o2,
      Bootstrap.pcFirst (Bootstrap.run svc unspecified sched Bootstrap.start)
      = Bootstrap.Returned o1 ->
      Bootstrap.pcSecond (Bootstrap.run svc unspecified sched Bootstrap.start)
      = Bootstrap.Returned o2 ->
      Bootstrap.calls
        (Bootstrap.shared (Bootstrap.run svc unspecified sched Bootstrap.start))
      = [Bootstrap.createIndex INDEX] /\
      o1 = o2 /\
      o1 = (if Bootstrap.createIndex_ack svc [] INDEX
            then Bootstrap.Success else Bootstrap.Failure)) /\
  (exists more o,
      Bootstrap.concurrent svc unspecified (sched ++ more) = true /\
      Bootstrap.pcFirst (Bootstrap.run svc unspecified (sched ++ more) Bootstrap.start)
      = Bootstrap.Returned o /\
      Bootstrap.pcSecond (Bootstrap.run svc unspecified (sched ++ more) Bootstrap.start)
      = Bootstrap.Returned o /\
      Bootstrap.creation_calls
        (Bootstrap.calls
           (Bootstrap.shared
              (Bootstrap.run svc unspecified (sched ++ more) Bootstrap.start))) = 1).
Proof.
  unfold Bootstrap.concurrent. intros Hov.
  destruct (run_invariant svc unspecified sched Bootstrap.start
              (start_invariant svc) Hov) as [Hinv Hlap].
  split; [exact (invariant_one_call svc _ Hinv)|].
  split; [intros o1 o2; exact (invariant_returned svc _ o1 o2 Hinv)|].
  set (c := Bootstrap.run svc unspecified sched Bootstrap.start) in *.
  destruct (finish_returns svc unspecified c Hinv Hlap) as [Hfin [o [H1 H2]]].
  exists (Bootstrap.finish c), o.
  assert (Hall : Bootstrap.overlapping svc unspecified (sched ++ Bootstrap.finish c)
                   Bootstrap.start = true).
  { rewrite overlapping_app, Hov. exact Hfin. }
  rewrite run_app. fold c. repeat split; auto.
  destruct (run_invariant svc unspecified (Bootstrap.finish c) c Hinv Hfin) as [Hinv' _].
  destruct (invariant_returned svc _ o o Hinv' H1 H2) as [-> _]. reflexivity.
Qed.

Lemma concurrent_creates_issue_one_call_witness :
  Bootstrap.pcFirst
    (Bootstrap.run never_ack refuse
       [Bootstrap.Second; Bootstrap.First; Bootstrap.Second; Bootstrap.First;
        Bootstrap.Second; Bootstrap.First] Bootstrap.start)
  = Bootstrap.Returned Bootstrap.Failure /\
  Bootstrap.pcSecond
    (Bootstrap.run never_ack refuse
       [Bootstrap.Second; Bootstrap.First; Bootstrap.Second; Bootstrap.First;
        Bootstrap.Second; Bootstrap.First] Bootstrap.start)
  = Bootstrap.Returned Bootstrap.Failure /\
  Bootstrap.calls
    (Bootstrap.shared
       (Bootstrap.run never_ack refuse
          [Bootstrap.Second; Bootstrap.First; Bootstrap.Second; Bootstrap.First;
           Bootstrap.Second; Bootstrap.First] Bootstrap.start))
  = [Bootstrap.createIndex INDEX] /\
  Bootstrap.Failure = Bootstrap.Failure /\
  Bootstrap.Failure = (if Bootstrap.createIndex_ack never_ack [] INDEX
                       then Bootstrap.Success else Bootstrap.Failure).
Proof.
  split; [reflexivity|]. split; [reflexivity|].
  destruct (concurrent_creates_issue_one_call never_ack refuse
              [Bootstrap.Second; Bootstrap.First; Bootstrap.Second; Bootstrap.First;
               Bootstrap.Second; Bootstrap.First] eq_refl) as (_ & H & _).
  exact (H Bootstrap.Failure Bootstrap.Failure eq_refl eq_refl).
Defined.

(** * Further properties of the workflow *)

(** ** The shape of a run *)

Section RunShape.
Variable deadline : nat.
Variable launch : Launcher.

Ltac stage_split s h t d :=
  unfold run_stage;
  destruct (json_get (inputPath s) d) as [input|] eqn:Hinput;
  [ destruct (resolve_env (overrides s) input) as [env|[field path]] eqn:Henv;
    [ destruct (integrationPattern s) eqn:Hpat;
      [ | destruct (launch h s env) as [[dur [outs|c]]|];
          [ destruct (deadline <? t + dur)%nat eqn:Hlate
          | destruct (deadline <? t + dur)%nat eqn:Hlate | ]
        | destruct (launch h s env) as [[dur [outs|c]]|];
          [ destruct (deadline <? t + dur)%nat eqn:Hlate
          | destruct (deadline <? t + dur)%nat eqn:Hlate | ] ]
    | ]
  | ].

(** A state that hands on to the next one launched its task once, on the
    input its [inputPath] selects and with the environment its overrides
    resolve to, and the clock has not passed the deadline. *)
Lemma run_stage_advances s h t d evs t' d' :
  run_stage deadline launch s h t d = (evs, inr (t', d')) ->
  exists input env,
    json_get (inputPath s) d = Some input /\
    resolve_env (overrides s) input = inl env /\
    evs = [Launch (id s) input env] /\
    t <= t' /\ (t <= deadline -> t' <= deadline).
Proof.
  stage_split s h t d; intros H; inversion H; subst;
    try (apply Nat.ltb_ge in Hlate);
    exists input, env; repeat split; auto; lia.
Qed.

(** A state that fails names itself; a path failure comes before any
    launch, a task failure after exactly one. *)
Lemma run_stage_fails s h t d evs st cause :
  run_stage deadline launch s h t d = (evs, inl (Failed st cause)) ->
  st = id s /\
  ((evs = [] /\
    ((json_get (inputPath s) d = None /\ cause = PathFailure "InputPath" (inputPath s)) \/
     exists input field path,
       json_get (inputPath s) d = Some input /\
       resolve_env (overrides s) input = inr (field, path) /\
       cause = PathFailure field path)) \/
   (exists input env c,
      json_get (inputPath s) d = Some input /\
      resolve_env (overrides s) input = inl env /\
      evs = [Launch (id s) input env] /\ cause = TaskFailedCause c)).
Proof.
  stage_split s h t d; intros H; inversion H; subst; (split; [reflexivity|]);
    first [ right; now eauto 10
          | left; split; [reflexivity|]; first [left; now auto | right; now eauto 10] ].
Qed.

(** A state that times out had launched its task; a run-job state cancels
    it, and that is the last event. *)
Lemma run_stage_times_out s h t d evs :
  run_stage deadline launch s h t d = (evs, inl TimedOut) ->
  exists input env,
    json_get (inputPath s) d = Some input /\
    resolve_env (overrides s) input = inl env /\
    integrationPattern s <> REQUEST_RESPONSE /\
    evs = Launch (id s) input env ::
          match integrationPattern s with RUN_JOB => [Cancel (id s)] | _ => [] end.
Proof.
  stage_split s h t d; intros H; inversion H; subst;
    exists input, env; rewrite ?Hpat; repeat split; auto; discriminate.
Qed.

(** A run that stops does so at one state of the chain, after the states
    before it have all advanced. *)
Lemma run_chain_stops c h t d h' st :
  run_chain deadline launch c h t d = (h', inl st) ->
  exists pre s post hp tp dp evs,
    c = pre ++ s :: post /\
    run_chain deadline launch pre h t d = (hp, inr (tp, dp)) /\
    run_stage deadline launch s hp tp dp = (evs, inl st) /\
    h' = hp ++ evs.
Proof.
  revert h t d. induction c as [|s rest IH]; intros h t d; simpl.
  - discriminate.
  - destruct (run_stage deadline launch s h t d) as [evs [st1|[t1 d1]]] eqn:E.
    + intros H; inversion H; subst.
      exists [], s, rest, h, t, d, evs. repeat split; auto.
    + intros H. apply IH in H.
      destruct H as (pre & s0 & post & hp & tp & dp & evs0 & -> & Hpre & Hs & ->).
      exists (s :: pre), s0, post, hp, tp, dp, evs0. repeat split; auto.
      simpl. now rewrite E.
Qed.

Lemma run_chain_clock c h t d h' t' d' :
  run_chain deadline launch c h t d = (h', inr (t', d')) ->
  t <= t' /\ (t <= deadline -> t' <= deadline).
Proof.
  revert h t d. induction c as [|s rest IH]; intros h t d; simpl.
  - intros H; inversion H; subst. auto.
  - destruct (run_stage deadline launch s h t d) as [evs [st1|[t1 d1]]] eqn:E;
      [discriminate|].
    intros H. apply IH in H.
    apply run_stage_advances in E.
    destruct E as (input & env & _ & _ & _ & Ht & Hd). split; [lia|].
    intros Hle. apply H. auto.
Qed.

End RunShape.

Section RunHistory.
Variable sm : StateMachine.
Variable launch : Launcher.
Variable doc : json.

(** The run of [sm] on [doc], before [startExecution] turns running off the
    end into success. *)
Lemma startExecution_cases :
  (exists h t out,
      run_chain (timeout sm) launch (definition sm) [] 0 doc = (h, inr (t, out)) /\
      startExecution sm launch doc = (h, Succeeded out)) \/
  (exists h st,
      run_chain (timeout sm) launch (definition sm) [] 0 doc = (h, inl st) /\
      startExecution sm launch doc = (h, st) /\
      forall out, st <> Succeeded out).
Proof.
  unfold startExecution.
  destruct (run_chain (timeout sm) launch (definition sm) [] 0 doc)
    as [h [st|[t out]]] eqn:E.
  - right. exists h, st. repeat split; auto.
    intros out ->. exact (run_chain_stops_unsuccessfully _ _ _ _ _ _ _ _ E).
  - left. eauto.
Qed.

(** Where a stopped run stood: the states before the stopping one were
    launched once each, in order, and cancelled nothing. *)
Lemma stopped_run h st :
  run_chain (timeout sm) launch (definition sm) [] 0 doc = (h, inl st) ->
  exists pre s post hp tp dp evs,
    definition sm = pre ++ s :: post /\
    run_stage (timeout sm) launch s hp tp dp = (evs, inl st) /\
    h = hp ++ evs /\ launched hp = map id pre /\ cancelled hp = [].
Proof.
  intros H. apply run_chain_stops in H.
  destruct H as (pre & s & post & hp & tp & dp & evs & Hc & Hpre & Hs & ->).
  destruct (run_chain_advance_launched _ _ _ _ _ _ _ _ _ Hpre) as [Hl Hcn].
  exists pre, s, post, hp, tp, dp, evs. repeat split; auto.
Qed.
End RunHistory.

Lemma launched_initial_segment (sm : StateMachine) (launch : Launcher) (doc : json) :
  exists rest,
    map id (definition sm) = launched (fst (startExecution sm launch doc)) ++ rest.
Proof.
  destruct (startExecution_cases sm launch doc)
    as [(h & t & out & Hrun & ->)|(h & st & Hrun & -> & Hns)]; simpl.
  - destruct (run_chain_advance_launched _ _ _ _ _ _ _ _ _ Hrun) as [-> _].
    exists []. now rewrite app_nil_r.
  - destruct (stopped_run _ _ _ _ _ Hrun)
      as (pre & s & post & hp & tp & dp & evs & -> & Hs & -> & Hl & _).
    rewrite launched_app, Hl, map_app. simpl.
    destruct st as [out|st cause|].
    + now destruct (Hns out).
    + destruct (run_stage_fails _ _ _ _ _ _ _ _ _ Hs)
        as [_ [[-> _]|(input & env & c & _ & _ & -> & _)]]; simpl.
      * rewrite app_nil_r. eauto.
      * exists (map id post). now rewrite <- app_assoc.
    + destruct (run_stage_times_out _ _ _ _ _ _ _ Hs)
        as (input & env & _ & _ & _ & ->).
      exists (map id post). rewrite <- app_assoc. simpl.
      destruct (integrationPattern s); reflexivity.
Qed.

(** X1.  In every run of every state machine the stages launched are an
    initial segment of the definition, in the definition's order: no stage
    is skipped and none is launched before its predecessors; the run of
    [sfnInspector] therefore launches some first [n] of its five stages,
    whatever the launcher and the submission. *)
Theorem stages_are_launched_in_order
  (sm : StateMachine) (launch : Launcher) (doc : json) :
  (exists rest,
      map id (definition sm) = launched (fst (startExecution sm launch doc)) ++ rest) /\
  (exists n,
      launched (fst (startExecution sfnInspector launch doc))
      = firstn n ["SubsamplerFirstPass"; "SubsamplerSecondPass"; "RunInspectTask";
                  "RunDupdetectTask"; "RunCuratorTask"]).
Proof.
  split; [apply launched_initial_segment|].
  destruct (launched_initial_segment sfnInspector launch doc) as [rest Hrest].
  exists (List.length (launched (fst (startExecution sfnInspector launch doc)))).
  change (map id (definition sfnInspector))
    with ["SubsamplerFirstPass"; "SubsamplerSecondPass"; "RunInspectTask";
          "RunDupdetectTask"; "RunCuratorTask"] in Hrest.
  rewrite Hrest. now rewrite firstn_app, Nat.sub_diag, firstn_all, app_nil_r.
Qed.

(** X2.  When the states of a definition have distinct ids, as the stack's
    five have, no run launches a stage twice. *)
Theorem no_stage_is_launched_twice
  (sm : StateMachine) (launch : Launcher) (doc : json) :
  NoDup (map id (definition sm)) ->
  NoDup (launched (fst (startExecution sm launch doc))).
Proof.
  intros Hnd.
  destruct (launched_initial_segment sm launch doc) as [rest Hpre].
  rewrite Hpre in Hnd.
  exact (NoDup_app_remove_r _ _ Hnd).
Qed.

Lemma no_stage_is_launched_twice_witness :
  NoDup (launched (fst (startExecution sfnInspector silent_success
                          (Context.to_json scenario)))).
Proof.
  apply (no_stage_is_launched_twice sfnInspector silent_success
           (Context.to_json scenario)).
  repeat constructor; simpl; intuition discriminate.
Defined.

(** X3.  A cancellation is issued only by a timeout.  In every run either
    nothing is cancelled, or the run ended [TimedOut] and its history ends
    with the launch of a stage followed by the cancellation of that same
    stage, the only cancellation of the run. *)
Theorem cancellation_only_on_timeout
  (sm : StateMachine) (launch : Launcher) (doc : json) :
  cancelled (fst (startExecution sm launch doc)) = [] \/
  (snd (startExecution sm launch doc) = TimedOut /\
   exists h s input env,
     fst (startExecution sm launch doc) = h ++ [Launch s input env; Cancel s] /\
     cancelled h = []).
Proof.
  destruct (startExecution_cases sm launch doc)
    as [(h & t & out & Hrun & ->)|(h & st & Hrun & -> & Hns)]; simpl.
  - left. now destruct (run_chain_advance_launched _ _ _ _ _ _ _ _ _ Hrun).
  - destruct (stopped_run _ _ _ _ _ Hrun)
      as (pre & s & post & hp & tp & dp & evs & _ & Hs & -> & _ & Hc).
    rewrite cancelled_app, Hc. simpl.
    destruct st as [out|st cause|].
    + now destruct (Hns out).
    + left.
      destruct (run_stage_fails _ _ _ _ _ _ _ _ _ Hs)
        as [_ [[-> _]|(input & env & c & _ & _ & -> & _)]]; reflexivity.
    + destruct (run_stage_times_out _ _ _ _ _ _ _ Hs)
        as (input & env & _ & _ & _ & ->).
      destruct (integrationPattern s); simpl; auto.
      right. split; [reflexivity|]. exists hp, (id s), input, env. auto.
Qed.

(** X4.  A run that ends [Succeeded] has launched every stage of the
    definition, once each and in order, has cancelled nothing, and its last
    stage reported no later than the deadline. *)
Theorem success_means_every_stage_ran
  (sm : StateMachine) (launch : Launcher) (doc out : json) :
  snd (startExecution sm launch doc) = Succeeded out ->
  launched (fst (startExecution sm launch doc)) = map id (definition sm) /\
  cancelled (fst (startExecution sm launch doc)) = [] /\
  exists t,
    t <= timeout sm /\
    run_chain (timeout sm) launch (definition sm) [] 0 doc
    = (fst (startExecution sm launch doc), inr (t, out)).
Proof.
  destruct (startExecution_cases sm launch doc)
    as [(h & t & out' & Hrun & ->)|(h & st & Hrun & -> & Hns)]; simpl.
  - intros H; inversion H; subst.
    destruct (run_chain_advance_launched _ _ _ _ _ _ _ _ _ Hrun) as [Hl Hc].
    destruct (run_chain_clock _ _ _ _ _ _ _ _ _ Hrun) as [_ Ht].
    repeat split; auto. exists t. split; [apply Ht; lia | exact Hrun].
  - intros ->. now destruct (Hns out).
Qed.

Lemma success_means_every_stage_ran_witness :
  launched (fst (startExecution sfnInspector silent_success (Context.to_json scenario)))
  = map id (definition sfnInspector) /\
  cancelled (fst (startExecution sfnInspector silent_success (Context.to_json scenario)))
  = [] /\
  exists t,
    t <= timeout sfnInspector /\
    run_chain (timeout sfnInspector) silent_success (definition sfnInspector) [] 0
              (Context.to_json scenario)
    = (fst (startExecution sfnInspector silent_success (Context.to_json scenario)),
       inr (t, Context.to_json scenario)).
Proof.
  exact (success_means_every_stage_ran sfnInspector silent_success
           (Context.to_json scenario) (Context.to_json scenario) eq_refl).
Defined.

(** X5.  A run that ends [Failed] names a stage of the definition, and
    nothing was cancelled.  If the cause is a path failure, the stages
    before the named one were launched and the named one was not; if the
    cause is a task failure, the named stage is the last one launched. *)
Theorem failure_names_a_stage
  (sm : StateMachine) (launch : Launcher) (doc : json) (st : string) (cause : Cause) :
  snd (startExecution sm launch doc) = Failed st cause ->
  exists pre s post,
    definition sm = pre ++ s :: post /\
    st = id s /\
    cancelled (fst (startExecution sm launch doc)) = [] /\
    launched (fst (startExecution sm launch doc))
    = match cause with
      | PathFailure _ _ => map id pre
      | TaskFailedCause _ => map id (pre ++ [s])
      end.
Proof.
  destruct (startExecution_cases sm launch doc)
    as [(h & t & out & Hrun & ->)|(h & st' & Hrun & -> & Hns)]; simpl.
  - discriminate.
  - intros ->.
    destruct (stopped_run _ _ _ _ _ Hrun)
      as (pre & s & post & hp & tp & dp & evs & Hdef & Hs & -> & Hl & Hc).
    exists pre, s, post. rewrite launched_app, cancelled_app, Hl, Hc, map_app.
    destruct (run_stage_fails _ _ _ _ _ _ _ _ _ Hs)
      as [-> [[-> Hpath]|(input & env & c & _ & _ & -> & ->)]]; simpl.
    + repeat split; auto.
      destruct Hpath as [[_ ->]|(input & field & path & _ & _ & ->)];
        now rewrite app_nil_r.
    + repeat split; auto.
Qed.

Lemma failure_names_a_stage_witness :
  exists pre s post,
    definition sfnInspector = pre ++ s :: post /\
    "RunInspectTask" = id s /\
    cancelled (fst (startExecution sfnInspector (failing_at "RunInspectTask")
                      (Context.to_json scenario))) = [] /\
    launched (fst (startExecution sfnInspector (failing_at "RunInspectTask")
                     (Context.to_json scenario)))
    = map id (pre ++ [s]).
Proof.
  exact (failure_names_a_stage sfnInspector (failing_at "RunInspectTask")
           (Context.to_json scenario) "RunInspectTask"
           (TaskFailedCause "exit code 1") eq_refl).
Defined.

(** ** What a stage is launched with *)

Lemma resolve_env_values (env : list EnvOverride) (input : json) r :
  resolve_env env input = inl r ->
  Forall2 (fun e kv => fst kv = name e /\ stringAt (value e) input = Some (snd kv)) env r.
Proof.
  revert r. induction env as [|e rest IH]; simpl; intros r.
  - intros H; inversion H. constructor.
  - destruct (stringAt (value e) input) as [v|] eqn:Ev; [|discriminate].
    destruct (resolve_env rest input) as [r'|]; [|discriminate].
    intros H; inversion H; subst. constructor; auto.
Qed.

Lemma resolve_env_total (env : list EnvOverride) (input : json) :
  (forall e, In e env -> stringAt (value e) input <> None) ->
  exists r, resolve_env env input = inl r.
Proof.
  induction env as [|e rest IH]; simpl; intros H; [eauto|].
  destruct (stringAt (value e) input) as [v|] eqn:Ev.
  - destruct IH as [r ->]; eauto.
  - exfalso. apply (H e); auto.
Qed.

Lemma Forall2_names (env : list EnvOverride) (input : json) r :
  Forall2 (fun e kv => fst kv = name e /\ stringAt (value e) input = Some (snd kv)) env r ->
  map fst r = map name env.
Proof.
  induction 1 as [|e kv env r [Hn _] _ IH]; simpl; congruence.
Qed.

Section LaunchFacts.
Variable deadline : nat.
Variable launch : Launcher.

Lemma run_stage_launch s h t d evs r s0 i0 e0 :
  run_stage deadline launch s h t d = (evs, r) ->
  In (Launch s0 i0 e0) evs ->
  s0 = id s /\ json_get (inputPath s) d = Some i0 /\
  resolve_env (overrides s) i0 = inl e0.
Proof.
  unfold run_stage.
  destruct (json_get (inputPath s) d) as [input|] eqn:Hinput;
    [|intros H; inversion H; subst; intros []].
  destruct (resolve_env (overrides s) input) as [env|[field path]] eqn:Henv;
    [|intros H; inversion H; subst; intros []].
  assert (Hin : forall tail,
             In (Launch s0 i0 e0)
                (Launch (id s) input env :: tail) ->
             (forall x, In x tail -> exists n, x = Cancel n) ->
             s0 = id s /\ Some input = Some i0 /\ resolve_env (overrides s) i0 = inl e0).
  { intros tail [E|E] Htail.
    - inversion E; subst. auto.
    - destruct (Htail _ E) as [n Hn]. discriminate. }
  assert (Hnil : forall x : Event, In x [] -> exists n, x = Cancel n) by (intros x []).
  assert (Hone : forall x, In x [Cancel (id s)] -> exists n, x = Cancel n).
  { intros x [<-|[]]. eauto. }
  destruct (integrationPattern s);
    [ | destruct (launch h s env) as [[dur [outs|c]]|];
        [ destruct (deadline <? t + dur)%nat | destruct (deadline <? t + dur)%nat | ]
      | destruct (launch h s env) as [[dur [outs|c]]|];
        [ destruct (deadline <? t + dur)%nat | destruct (deadline <? t + dur)%nat | ] ];
    intros H; inversion H; subst; intros Hl; eapply Hin; eauto.
Qed.

(** In a chain whose states pass the document through, every launch is of
    a state of the chain, on the document the chain was entered with. *)
Lemma run_chain_launch c h t d h' r s0 i0 e0 :
  Forall passes_through c ->
  run_chain deadline launch c h t d = (h', r) ->
  In (Launch s0 i0 e0) h' ->
  In (Launch s0 i0 e0) h \/
  exists st, In st c /\ id st = s0 /\ i0 = d /\ resolve_env (overrides st) d = inl e0.
Proof.
  intros Hc. revert h t. induction Hc as [|s rest Hs _ IH]; intros h t; simpl.
  - intros H; inversion H; subst. auto.
  - destruct (run_stage deadline launch s h t d) as [evs r1] eqn:E.
    assert (Hevs : forall s1 i1 e1, In (Launch s1 i1 e1) (h ++ evs) ->
               In (Launch s1 i1 e1) h \/
               exists st, In st (s :: rest) /\ id st = s1 /\ i1 = d /\
                          resolve_env (overrides st) d = inl e1).
    { intros s1 i1 e1 Hin. apply in_app_or in Hin. destruct Hin as [Hin|Hin]; auto.
      right. destruct (run_stage_launch _ _ _ _ _ _ _ _ _ E Hin) as (-> & Hi & He).
      destruct Hs as [Hip _]. rewrite Hip in Hi. simpl in Hi. inversion Hi; subst.
      exists s. repeat split; auto; now left. }
    destruct r1 as [st|[t1 d1]].
    + intros H; inversion H; subst. apply Hevs.
    + destruct (run_stage_passes_through _ _ _ _ _ _ _ _ Hs E) as [_ Hd].
      rewrite (Hd _ _ eq_refl). intros Hrun Hin.
      destruct (IH _ _ Hrun Hin) as [Hin'|(st & Hst & Hid & Hi & He)].
      * apply Hevs. exact Hin'.
      * right. exists st. repeat split; auto; now right.
Qed.
End LaunchFacts.

Lemma sfnInspector_launch (launch : Launcher) (doc : json) s input env :
  In (Launch s input env) (fst (startExecution sfnInspector launch doc)) ->
  exists st, In st wf_chain /\ id st = s /\ input = doc /\
             resolve_env (overrides st) doc = inl env.
Proof.
  unfold startExecution.
  destruct (run_chain (timeout sfnInspector) launch (definition sfnInspector) [] 0 doc)
    as [h r] eqn:E.
  intros Hin.
  assert (Hin' : In (Launch s input env) h) by (destruct r as [st|[t d]]; exact Hin).
  destruct (run_chain_launch _ _ _ _ _ _ _ _ _ _ _ wf_chain_passes_through E Hin')
    as [[]|H].
  exact H.
Qed.

(** X6.  Whenever a run of [sfnInspector] launches a stage, the environment
    it passes binds exactly the variables the stage's overrides name, in
    their order, each to the string found at its path in the submitted
    document: values reported by earlier stages never reach a later stage's
    environment. *)
Theorem launch_environment_comes_from_the_submission
  (launch : Launcher) (doc : json) (s : string) (input : json)
  (env : list (string * string)) :
  In (Launch s input env) (fst (startExecution sfnInspector launch doc)) ->
  exists st,
    In st (definition sfnInspector) /\ id st = s /\
    map fst env = map name (overrides st) /\
    Forall2 (fun e kv => fst kv = name e /\ stringAt (value e) doc = Some (snd kv))
            (overrides st) env.
Proof.
  intros Hin. destruct (sfnInspector_launch _ _ _ _ _ Hin) as (st & Hst & Hid & _ & He).
  apply resolve_env_values in He.
  exists st. repeat split; auto. exact (Forall2_names _ _ _ He).
Qed.

Lemma launch_environment_comes_from_the_submission_witness :
  exists st,
    In st (definition sfnInspector) /\ id st = "RunCuratorTask" /\
    map fst [("S3_INPUT_DATA", "a"); ("S3_INPUT_SCHEMA", ""); ("S3_INPUT_DESC", "");
             ("S3_INPUT_DQDL", "x"); ("S3_OUTPUT_DQDL", ""); ("TABLE_NAME", "mytable")]
    = map name (overrides st) /\
    Forall2 (fun e kv => fst kv = name e /\
                         stringAt (value e) (Context.to_json scenario) = Some (snd kv))
            (overrides st)
            [("S3_INPUT_DATA", "a"); ("S3_INPUT_SCHEMA", ""); ("S3_INPUT_DESC", "");
             ("S3_INPUT_DQDL", "x"); ("S3_OUTPUT_DQDL", ""); ("TABLE_NAME", "mytable")].
Proof.
  apply (launch_environment_comes_from_the_submission writing_launcher
           (Context.to_json scenario) "RunCuratorTask" (Context.to_json scenario)).
  simpl. do 4 right. left. reflexivity.
Defined.

(** ** The keys a submission must hold *)

Lemma required_keys_intro (c : Chain.t) s e k :
  In s c -> In e (overrides s) -> value e = [k] -> In k (required_keys c).
Proof.
  intros Hs He Hv. unfold required_keys.
  apply in_flat_map. exists s. split; auto.
  apply in_flat_map. exists e. split; auto.
  rewrite Hv. now left.
Qed.

Lemma required_keys_elim (c : Chain.t) k :
  In k (required_keys c) ->
  exists s e, In s c /\ In e (overrides s) /\ In k (root_key (value e)).
Proof.
  unfold required_keys. intros H.
  apply in_flat_map in H. destruct H as (s & Hs & H).
  apply in_flat_map in H. destruct H as (e & He & H). eauto.
Qed.

Lemma wf_chain_single_keys s e :
  In s wf_chain -> In e (overrides s) -> exists k, value e = [k].
Proof.
  simpl. intros Hs.
  repeat (destruct Hs as [<-|Hs];
          [simpl; intros He;
           repeat (destruct He as [<-|He]; [eexists; reflexivity|]); destruct He|]).
  destruct Hs.
Qed.

Lemma complete_submission_resolves (doc : json) :
  (forall k, In k (required_keys wf_chain) -> stringAt [k] doc <> None) ->
  Forall (fun s => exists env, resolve_env (overrides s) doc = inl env) wf_chain.
Proof.
  intros Hkeys. apply Forall_forall. intros s Hs.
  apply resolve_env_total. intros e He.
  destruct (wf_chain_single_keys s e Hs He) as [k Hk].
  rewrite Hk. apply Hkeys. exact (required_keys_intro wf_chain s e k Hs He Hk).
Qed.

Section ResolveFacts.
Variable deadline : nat.
Variable launch : Launcher.

Lemma run_chain_advance_resolves c h t d h' t' d' :
  Forall passes_through c ->
  run_chain deadline launch c h t d = (h', inr (t', d')) ->
  Forall (fun s => exists env, resolve_env (overrides s) d = inl env) c.
Proof.
  intros Hc. revert h t. induction Hc as [|s rest Hs _ IH]; intros h t; simpl.
  - constructor.
  - destruct (run_stage deadline launch s h t d) as [evs [st|[t1 d1]]] eqn:E;
      [discriminate|].
    destruct (run_stage_passes_through _ _ _ _ _ _ _ _ Hs E) as [_ Hd].
    rewrite (Hd _ _ eq_refl). intros Hrun. constructor; [|exact (IH _ _ Hrun)].
    apply run_stage_advances in E.
    destruct E as (input & env & Hi & He & _). destruct Hs as [Hip _].
    rewrite Hip in Hi. simpl in Hi. inversion Hi; subst. eauto.
Qed.
End ResolveFacts.

(** X7.  If the submitted document holds a string at every key the chain
    refers to, no run of [sfnInspector] ends with a path failure, whatever
    the launcher does. *)
Theorem complete_submission_has_no_path_failure (launch : Launcher) (doc : json) :
  (forall k, In k (required_keys (definition sfnInspector)) -> stringAt [k] doc <> None) ->
  match snd (startExecution sfnInspector launch doc) with
  | Failed _ (PathFailure _ _) => False
  | _ => True
  end.
Proof.
  intros Hkeys. pose proof (complete_submission_resolves doc Hkeys) as Hres.
  destruct (startExecution_cases sfnInspector launch doc)
    as [(h & t & out & Hrun & ->)|(h & st & Hrun & -> & Hns)]; simpl; auto.
  destruct st as [out|st [c|field path]|]; auto.
  apply run_chain_stops in Hrun.
  destruct Hrun as (pre & s & post & hp & tp & dp & evs & Hdef & Hpre & Hs & ->).
  pose proof wf_chain_passes_through as Hpass.
  change (definition sfnInspector) with wf_chain in Hdef. rewrite Hdef in Hpass, Hres.
  apply Forall_app in Hpass. destruct Hpass as [Hp1 Hp2].
  apply Forall_app in Hres. destruct Hres as [_ Hr2].
  inversion Hp2 as [|? ? [Hip _] _]; subst.
  inversion Hr2 as [|? ? [env Henv] _]; subst.
  assert (Hdp : dp = doc).
  { assert (Hempty : inputs_are doc []) by (intros ? ? ? []).
    destruct (run_chain_passes_through _ _ _ _ _ _ _ _ Hp1 Hempty Hpre) as [_ Hd].
    exact (Hd _ _ eq_refl). }
  subst dp.
  destruct (run_stage_fails _ _ _ _ _ _ _ _ _ Hs)
    as [_ [[_ [[Hnone _]|(input & f & p & Hi & He & _)]]|(input & env' & c & _ & _ & _ & Hc)]].
  - rewrite Hip in Hnone. discriminate.
  - rewrite Hip in Hi. simpl in Hi. inversion Hi; subst. congruence.
  - discriminate.
Qed.

Lemma complete_submission_has_no_path_failure_witness :
  match snd (startExecution sfnInspector (failing_at "RunCuratorTask")
               (Context.to_json scenario)) with
  | Failed _ (PathFailure _ _) => False
  | _ => True
  end.
Proof.
  apply (complete_submission_has_no_path_failure (failing_at "RunCuratorTask")
           (Context.to_json scenario)).
  intros k Hk. simpl in Hk.
  repeat (destruct Hk as [<-|Hk]; [discriminate|]). destruct Hk.
Defined.

(** X8.  For every submitted document that holds a string at every key
    the chain refers to, if every task reports success within [D] seconds
    and five times [D] fits the deadline, the run of [sfnInspector] ends
    [Succeeded] with the submitted document as its output, having launched
    the five stages in order. *)
Theorem complete_submission_succeeds (launch : Launcher) (D : nat) (doc : json) :
  (forall k, In k (required_keys (definition sfnInspector)) -> stringAt [k] doc <> None) ->
  (forall h s env, exists outputs d,
      launch h s env = Some (d, TaskSucceeded outputs) /\ d <= D) ->
  5 * D <= timeout sfnInspector ->
  snd (startExecution sfnInspector launch doc) = Succeeded doc /\
  launched (fst (startExecution sfnInspector launch doc)) = map id (definition sfnInspector).
Proof.
  intros Hkeys Hprompt HD.
  destruct (run_chain_all_succeed (timeout sfnInspector) launch D Hprompt doc wf_chain
              wf_chain_passes_through (complete_submission_resolves doc Hkeys) [] 0)
    as (h' & t' & Hrun & _).
  { simpl List.length. lia. }
  unfold startExecution. change (definition sfnInspector) with wf_chain.
  rewrite Hrun. simpl fst. simpl snd. split; [reflexivity|].
  now destruct (run_chain_advance_launched _ _ _ _ _ _ _ _ _ Hrun).
Qed.

Lemma complete_submission_succeeds_witness :
  snd (startExecution sfnInspector silent_success (Context.to_json scenario))
  = Succeeded (Context.to_json scenario) /\
  launched (fst (startExecution sfnInspector silent_success (Context.to_json scenario)))
  = map id (definition sfnInspector).
Proof.
  apply (complete_submission_succeeds silent_success 60 (Context.to_json scenario)).
  - intros k Hk. simpl in Hk.
    repeat (destruct Hk as [<-|Hk]; [discriminate|]). destruct Hk.
  - intros h s env. eexists _, 60. split; [reflexivity|apply le_n].
  - apply Nat.leb_le. vm_compute. reflexivity.
Defined.

(** X9.  Every key the chain refers to is needed, the output locations
    included: if the submitted document lacks a string at any one of them,
    no run of [sfnInspector] ends [Succeeded]; it ends [TimedOut] or
    [Failed]. *)
Theorem incomplete_submission_never_succeeds
  (launch : Launcher) (doc : json) (k : string) :
  In k (required_keys (definition sfnInspector)) ->
  stringAt [k] doc = None ->
  snd (startExecution sfnInspector launch doc) = TimedOut \/
  exists st cause, snd (startExecution sfnInspector launch doc) = Failed st cause.
Proof.
  intros Hk Hnone.
  destruct (startExecution_cases sfnInspector launch doc)
    as [(h & t & out & Hrun & ->)|(h & st & Hrun & -> & Hns)]; simpl.
  - exfalso.
    apply run_chain_advance_resolves in Hrun; [|exact wf_chain_passes_through].
    apply required_keys_elim in Hk. destruct Hk as (s & e & Hs & He & Hin).
    rewrite Forall_forall in Hrun. destruct (Hrun s Hs) as [env Henv].
    destruct (wf_chain_single_keys s e Hs He) as [k' Hk'].
    rewrite Hk' in Hin. simpl in Hin. destruct Hin as [<-|[]].
    rewrite <- Hk' in Hnone.
    destruct (resolve_env_missing _ _ _ He Hnone) as (f & p & Hr & _). congruence.
  - destruct st as [out|st cause|]; eauto. now destruct (Hns out).
Qed.

Lemma incomplete_submission_never_succeeds_witness :
  snd (startExecution sfnInspector silent_success
         (Context.to_json [("S3Input", "a"); ("S3OutputFirst", "b")])) = TimedOut \/
  exists st cause,
    snd (startExecution sfnInspector silent_success
           (Context.to_json [("S3Input", "a"); ("S3OutputFirst", "b")]))
    = Failed st cause.
Proof.
  apply (incomplete_submission_never_succeeds silent_success
           (Context.to_json [("S3Input", "a"); ("S3OutputFirst", "b")])
           "S3OutputDQDL").
  - simpl. do 15 right. left. reflexivity.
  - reflexivity.
Defined.

(** X10.  Whenever a run of [sfnInspector] launches a stage, no variable
    is bound twice in the environment it passes, and no override replaces a
    variable that the stage's container definition already sets. *)
Theorem launch_environment_names_are_distinct
  (launch : Launcher) (doc : json) (s : string) (input : json)
  (env : list (string * string)) :
  In (Launch s input env) (fst (startExecution sfnInspector launch doc)) ->
  NoDup (map fst env) /\
  exists st,
    In st (definition sfnInspector) /\ id st = s /\
    forall n, In n (map fst env) ->
              alist_get n (environment (containerDefinition st)) = None.
Proof.
  intros Hin. destruct (sfnInspector_launch _ _ _ _ _ Hin) as (st & Hst & Hid & _ & He).
  apply resolve_env_values in He. apply Forall2_names in He. rewrite He.
  assert (Hall : Forall (fun st =>
                   NoDup (map name (overrides st)) /\
                   forall n, In n (map name (overrides st)) ->
                             alist_get n (environment (containerDefinition st)) = None)
                 wf_chain).
  { repeat constructor; simpl; try (intuition discriminate);
      intros n Hn; repeat (destruct Hn as [<-|Hn]; [reflexivity|]); destruct Hn. }
  rewrite Forall_forall in Hall. destruct (Hall st Hst) as [Hnd Hdis].
  split; [exact Hnd|]. exists st. auto.
Qed.

Lemma launch_environment_names_are_distinct_witness :
  NoDup (map fst [("S3_INPUT", ""); ("S3_OUTPUT", ""); ("S3_OUTPUT_DESC", "")]) /\
  exists st,
    In st (definition sfnInspector) /\ id st = "RunDupdetectTask" /\
    forall n, In n (map fst [("S3_INPUT", ""); ("S3_OUTPUT", ""); ("S3_OUTPUT_DESC", "")]) ->
              alist_get n (environment (containerDefinition st)) = None.
Proof.
  apply (launch_environment_names_are_distinct silent_success
           (Context.to_json scenario) "RunDupdetectTask" (Context.to_json scenario)).
  simpl. do 3 right. left. reflexivity.
Defined.

(** X11.  The keys the chain refers to are exactly the ten keys of the
    README's sample input: the sample misses none, and holds none that no
    stage reads. *)
Theorem sample_input_keys_are_the_required_keys (k : string) :
  In k (required_keys (definition sfnInspector)) <-> In k (Context.keys scenario).
Proof.
  split; simpl; intros H;
    repeat (destruct H as [<-|H]; [auto 20|]); destruct H.
Qed.

(** ** The index the stages use *)

(** X12.  Every stage whose container is handed an index name is handed the
    name of the index the bootstrap function creates, and the endpoint the
    bootstrap function is given. *)
Theorem stages_use_the_bootstrapped_index (s : EcsRunTask) (n : string) :
  In s (definition sfnInspector) ->
  alist_get "OSS_INDEX_NAME" (environment (containerDefinition s)) = Some n ->
  n = INDEX /\
  uses_index s = true /\
  alist_get "OSS_DOMAIN_ENDPOINT" (environment (containerDefinition s))
  = alist_get "DOMAINURL" (Lambda.environment createOsIndexLambda).
Proof.
  simpl. intros Hs.
  repeat (destruct Hs as [<-|Hs];
          [simpl; intros H; inversion H; repeat split; reflexivity|]).
  destruct Hs.
Qed.

Lemma stages_use_the_bootstrapped_index_witness :
  "embeddings" = INDEX /\
  uses_index runDupdetectTask = true /\
  alist_get "OSS_DOMAIN_ENDPOINT" (environment (containerDefinition runDupdetectTask))
  = alist_get "DOMAINURL" (Lambda.environment createOsIndexLambda).
Proof.
  apply (stages_use_the_bootstrapped_index runDupdetectTask "embeddings").
  - simpl. do 3 right. left. reflexivity.
  - reflexivity.
Defined.

(** ** Permissions *)

(** X13.  The statement added to the state machine's role allows
    [ecs:RunTask] on the task definition of every stage a run launches, and
    lists no task definition that no stage of the chain uses. *)
Theorem state_machine_may_run_what_it_launches
  (launch : Launcher) (doc : json) (s : string) (input : json)
  (env : list (string * string)) :
  In (Launch s input env) (fst (startExecution sfnInspector launch doc)) ->
  (exists st,
      In st (definition sfnInspector) /\ id st = s /\
      allows sfnInspectorRolePolicy "ecs:RunTask"
             (taskDefinitionArn (taskDefinition st)) = true) /\
  (forall arn, In arn (iam.resources sfnInspectorRolePolicy) ->
               exists st, In st (definition sfnInspector) /\
                          taskDefinitionArn (taskDefinition st) = arn).
Proof.
  intros Hin. split.
  - destruct (sfnInspector_launch _ _ _ _ _ Hin) as (st & Hst & Hid & _).
    exists st. repeat split; auto.
    simpl in Hst. repeat (destruct Hst as [<-|Hst]; [reflexivity|]). destruct Hst.
  - simpl. intros arn H.
    destruct H as [<-|[<-|[<-|[<-|[]]]]];
      [ exists runSubsamplerTaskFirstPass | exists runInspectTask
      | exists runDupdetectTask | exists runCuratorTask ]; simpl; auto 10.
Qed.

Lemma state_machine_may_run_what_it_launches_witness :
  (exists st,
      In st (definition sfnInspector) /\ id st = "RunInspectTask" /\
      allows sfnInspectorRolePolicy "ecs:RunTask"
             (taskDefinitionArn (taskDefinition st)) = true) /\
  (forall arn, In arn (iam.resources sfnInspectorRolePolicy) ->
               exists st, In st (definition sfnInspector) /\
                          taskDefinitionArn (taskDefinition st) = arn).
Proof.
  apply (state_machine_may_run_what_it_launches silent_success
           (Context.to_json scenario) "RunInspectTask" (Context.to_json scenario)
           [("S3_INPUT_1", ""); ("S3_INPUT_2", "");
            ("S3_OUTPUT_1", ""); ("S3_OUTPUT_2", "")]).
  simpl. do 2 right. left. reflexivity.
Defined.

(** X14.  Every stage a run launches whose container is handed the index
    runs under a task role that ECS tasks may assume and that is a principal
    of the collection's data access policy. *)
Theorem index_users_are_policy_principals
  (launch : Launcher) (doc : json) (s : string) (input : json)
  (env : list (string * string)) :
  In (Launch s input env) (fst (startExecution sfnInspector launch doc)) ->
  exists st,
    In st (definition sfnInspector) /\ id st = s /\
    (uses_index st = true ->
     exists r, taskRole (taskDefinition st) = Some r /\
               In r dataAccessPolicyPrincipals /\
               iam.assumedBy r = "ecs-tasks.amazonaws.com").
Proof.
  intros Hin. destruct (sfnInspector_launch _ _ _ _ _ Hin) as (st & Hst & Hid & _).
  exists st. repeat split; auto.
  simpl in Hst.
  repeat (destruct Hst as [<-|Hst];
          [ first [ intros Hu; discriminate Hu
                  | intros _; exists ecsTaskRoleOS; simpl; auto 10 ] | ]).
  destruct Hst.
Qed.

Lemma index_users_are_policy_principals_witness :
  exists st,
    In st (definition sfnInspector) /\ id st = "RunDupdetectTask" /\
    (uses_index st = true ->
     exists r, taskRole (taskDefinition st) = Some r /\
               In r dataAccessPolicyPrincipals /\
               iam.assumedBy r = "ecs-tasks.amazonaws.com").
Proof.
  apply (index_users_are_policy_principals silent_success
           (Context.to_json scenario) "RunDupdetectTask" (Context.to_json scenario)
           [("S3_INPUT", ""); ("S3_OUTPUT", ""); ("S3_OUTPUT_DESC", "")]).
  simpl. do 3 right. left. reflexivity.
Defined.

(** X15.  Every run of [sfnInspector] that ends [TimedOut] ends with the
    launch of one of its stages followed by the cancellation of that stage;
    no timeout leaves the task in flight uncancelled, and no earlier task
    is cancelled. *)
Theorem timeout_cancels_the_stage_in_flight (launch : Launcher) (doc : json) :
  snd (startExecution sfnInspector launch doc) = TimedOut ->
  exists h st input env,
    In st (definition sfnInspector) /\
    fst (startExecution sfnInspector launch doc)
    = h ++ [Launch (id st) input env; Cancel (id st)] /\
    cancelled h = [] /\
    cancelled (fst (startExecution sfnInspector launch doc)) = [id st].
Proof.
  destruct (startExecution_cases sfnInspector launch doc)
    as [(h & t & out & Hrun & ->)|(h & st & Hrun & -> & Hns)]; simpl.
  - discriminate.
  - intros ->.
    destruct (stopped_run _ _ _ _ _ Hrun)
      as (pre & s & post & hp & tp & dp & evs & Hdef & Hs & -> & _ & Hc).
    destruct (run_stage_times_out _ _ _ _ _ _ _ Hs) as (input & env & _ & _ & _ & ->).
    assert (Hin : In s wf_chain).
    { change wf_chain with (definition sfnInspector). rewrite Hdef.
      apply in_or_app. right. now left. }
    rewrite (wf_chain_run_job s Hin).
    exists hp, s, input, env. rewrite cancelled_app, Hc. repeat split; auto.
Qed.

Lemma timeout_cancels_the_stage_in_flight_witness :
  exists h st input env,
    In st (definition sfnInspector) /\
    fst (startExecution sfnInspector (hanging_at "SubsamplerSecondPass")
           (Context.to_json scenario))
    = h ++ [Launch (id st) input env; Cancel (id st)] /\
    cancelled h = [] /\
    cancelled (fst (startExecution sfnInspector (hanging_at "SubsamplerSecondPass")
                      (Context.to_json scenario))) = [id st].
Proof.
  exact (timeout_cancels_the_stage_in_flight (hanging_at "SubsamplerSecondPass")
           (Context.to_json scenario) eq_refl).
Defined.
